(** * RpcSequencer: the control-side proxy of the audio sequencer

    A shallow embedding of [src/framework/audio/internal/rpc/rpcsequencer.cpp].

    The proxy turns calls into [Msg] values handed to the rpc channel and
    turns inbound [Msg] values into updates of its cached members.  C++
    objects live in a store indexed by their address, so that the closures
    of the listener (which capture [this]) and the function-local [static]
    table of the listener lambda can be written as the code has them. *)

From Stdlib Require Import Floats.SpecFloat.
From stdpp Require Import gmap strings list fin_maps.

(** ** Wire types *)

(** Modelled from the spec: [TargetName] and [Target] are declared in
    rpctypes.h, which is not part of the sources at hand.  The spec gives a
    target as an opaque identifier naming a logical endpoint, with a total
    equality; the source only names [TargetName::Sequencer]. *)
Inductive TargetName := Undefined | AudioEngine | Sequencer.

Record Target := mkTarget { target_name : TargetName }.

#[global] Instance TargetName_eq_dec : EqDecision TargetName.
Proof. solve_decision. Defined.

#[global] Instance Target_eq_dec : EqDecision Target.
Proof. solve_decision. Defined.

Definition Method := string.

(** Modelled from the spec: [ISequencer::Status] is declared in
    isequencer.h (absent); the spec lists stopped, playing and paused. *)
Inductive Status := Stopped | Playing | Paused.

(** Modelled from the spec: [track_id] and [midi::tick_t] are typedefs of
    headers that are absent; both are opaque keys here, kept apart in
    [Args] by the type they were stored at. *)
Definition track_id := N.
Definition tick_t := N.

(** A [std::shared_ptr] to a live stream, by the address it points to. *)
Definition handle := N.

(** Modelled from the spec: [midi::MidiData] (absent) is the payload of an
    instant playback and carries a live stream handle. *)
Record MidiData := mkMidiData { md_stream : handle }.

(** One position of [Args]: a value together with the static type it was
    stored at ([Args::make_arg1<T>], [Args::make_arg2<T1, T2>]).  The
    [float] position and the [uint64_t] times are only stored and passed on,
    never computed with. *)
Inductive Arg :=
  | AStatus (s : Status)
  | AFloat (f : spec_float)
  | ATrackId (id : track_id)
  | ATick (t : tick_t)
  | AUInt64 (n : N)
  | AMidiStream (h : handle)
  | AAudioStream (h : handle)
  | AMidiData (d : MidiData).

Definition Args := list Arg.

Definition make_arg1 (a : Arg) : Args := [a].
Definition make_arg2 (a b : Arg) : Args := [a; b].

Record Msg := mkMsg { target : Target; method : Method; args : Args }.

(** [Msg(target, method)]: the two-argument constructor, no arguments. *)
Definition Msg2 (t : Target) (m : Method) : Msg := mkMsg t m [].

(** ** Objects *)

(** The address of an [RpcSequencer] instance ([this]). *)
Definition ptr := N.

(** A [Channel<tick_t>] instance, by its index in the store of channels. *)
Definition chan := nat.

Definition ListenID := N.

(** The members of one proxy.  Modelled from the spec: [async::Channel] and
    [async::Notification] are absent; [m_statusChanged] is kept as the
    values pushed through that channel so far and [m_positionChanged] as the
    number of notifications emitted.  [m_midiTickPlayed] maps a track to the
    channel instance registered for it. *)
Record RpcSequencer := mkRpcSequencer {
  m_target : Target;
  m_listenID : ListenID;
  m_status : Status;
  m_statusChanged : list Status;
  m_playbackPosition : spec_float;
  m_positionChanged : nat;
  m_midiTickPlayed : gmap track_id chan
}.

(** The three closures that [setup] binds; each captures [this]. *)
Inductive Handler := OnStatusChanged | OnPositionChanged | OnMidiTickPlayed.

Record Call := mkCall { call_this : ptr; call_code : Handler }.

#[global] Instance Handler_eq_dec : EqDecision Handler.
Proof. solve_decision. Defined.

#[global] Instance Call_eq_dec : EqDecision Call.
Proof. solve_decision. Defined.

Inductive LogLine := LOGE (text : string).

(** ** The process state *)

(** [objects]: the live proxies.  [calls]: the [static std::map<Method,
    Call>] local to the listener lambda, one per process.  [channels]: every
    [Channel<tick_t>] created so far, with the ticks sent through it.  The
    remaining fields are the rpc channel: its mode, its listeners (the
    [this] captured by each registered lambda) and the messages handed to
    [send]. *)
Record World := mkWorld {
  objects : gmap ptr RpcSequencer;
  calls : gmap Method Call;
  channels : list (list tick_t);
  isSerialized : bool;
  listeners : list (ListenID * ptr);
  next_listenID : ListenID;
  sent : list Msg;
  log : list LogLine
}.

Definition set_objects (f : gmap ptr RpcSequencer → gmap ptr RpcSequencer) (w : World) : World :=
  mkWorld (f (objects w)) (calls w) (channels w) (isSerialized w)
          (listeners w) (next_listenID w) (sent w) (log w).

Definition set_calls (f : gmap Method Call → gmap Method Call) (w : World) : World :=
  mkWorld (objects w) (f (calls w)) (channels w) (isSerialized w)
          (listeners w) (next_listenID w) (sent w) (log w).

Definition set_channels (f : list (list tick_t) → list (list tick_t)) (w : World) : World :=
  mkWorld (objects w) (calls w) (f (channels w)) (isSerialized w)
          (listeners w) (next_listenID w) (sent w) (log w).

Definition set_listeners (f : list (ListenID * ptr) → list (ListenID * ptr)) (w : World) : World :=
  mkWorld (objects w) (calls w) (channels w) (isSerialized w)
          (f (listeners w)) (next_listenID w) (sent w) (log w).

Definition set_next_listenID (n : ListenID) (w : World) : World :=
  mkWorld (objects w) (calls w) (channels w) (isSerialized w)
          (listeners w) n (sent w) (log w).

Definition set_sent (f : list Msg → list Msg) (w : World) : World :=
  mkWorld (objects w) (calls w) (channels w) (isSerialized w)
          (listeners w) (next_listenID w) (f (sent w)) (log w).

Definition set_log (f : list LogLine → list LogLine) (w : World) : World :=
  mkWorld (objects w) (calls w) (channels w) (isSerialized w)
          (listeners w) (next_listenID w) (sent w) (f (log w)).

(** ** Computations *)

(** What ends a call early. *)
Inductive Signal :=
  | NotImplemented
  | BadArgument (i : nat)
  | DeadObject (p : ptr).

Inductive Result (A : Type) :=
  | Ok (a : A)
  | Raised (s : Signal).

Arguments Ok {A} a.
Arguments Raised {A} s.

Definition M (A : Type) : Type := World → Result A * World.

Definition ret {A} (a : A) : M A := λ w, (Ok a, w).

Definition bind {A B} (m : M A) (k : A → M B) : M B :=
  λ w, match m w with
       | (Ok a, w') => k a w'
       | (Raised s, w') => (Raised s, w')
       end.

Definition raise {A} (s : Signal) : M A := λ w, (Raised s, w).

Definition gets {A} (f : World → A) : M A := λ w, (Ok (f w), w).

Definition modify (f : World → World) : M unit := λ w, (Ok tt, f w).

Notation "'let!' x ':=' m 'in' k" := (bind m (λ x, k))
  (at level 10, x name, m at level 100, k at level 200).

Notation "'do!' m 'in' k" := (bind m (λ _, k))
  (at level 10, m at level 100, k at level 200).

(** Member access through [this].  [DeadObject] stands for what C++ leaves
    undefined: the use of an object after its destructor ran. *)
Definition deref (this : ptr) : M RpcSequencer :=
  λ w, match objects w !! this with
       | Some o => (Ok o, w)
       | None => (Raised (DeadObject this), w)
       end.

Definition update (this : ptr) (f : RpcSequencer → RpcSequencer) : M unit :=
  do! deref this in
  modify (set_objects (alter f this)).

Definition set_m_target (t : Target) (o : RpcSequencer) : RpcSequencer :=
  mkRpcSequencer t (m_listenID o) (m_status o) (m_statusChanged o)
                 (m_playbackPosition o) (m_positionChanged o) (m_midiTickPlayed o).

Definition set_m_listenID (i : ListenID) (o : RpcSequencer) : RpcSequencer :=
  mkRpcSequencer (m_target o) i (m_status o) (m_statusChanged o)
                 (m_playbackPosition o) (m_positionChanged o) (m_midiTickPlayed o).

Definition set_m_status (s : Status) (o : RpcSequencer) : RpcSequencer :=
  mkRpcSequencer (m_target o) (m_listenID o) s (m_statusChanged o)
                 (m_playbackPosition o) (m_positionChanged o) (m_midiTickPlayed o).

Definition push_m_statusChanged (s : Status) (o : RpcSequencer) : RpcSequencer :=
  mkRpcSequencer (m_target o) (m_listenID o) (m_status o) (m_statusChanged o ++ [s])
                 (m_playbackPosition o) (m_positionChanged o) (m_midiTickPlayed o).

Definition set_m_playbackPosition (p : spec_float) (o : RpcSequencer) : RpcSequencer :=
  mkRpcSequencer (m_target o) (m_listenID o) (m_status o) (m_statusChanged o)
                 p (m_positionChanged o) (m_midiTickPlayed o).

Definition notify_m_positionChanged (o : RpcSequencer) : RpcSequencer :=
  mkRpcSequencer (m_target o) (m_listenID o) (m_status o) (m_statusChanged o)
                 (m_playbackPosition o) (S (m_positionChanged o)) (m_midiTickPlayed o).

Definition set_m_midiTickPlayed (f : gmap track_id chan → gmap track_id chan)
    (o : RpcSequencer) : RpcSequencer :=
  mkRpcSequencer (m_target o) (m_listenID o) (m_status o) (m_statusChanged o)
                 (m_playbackPosition o) (m_positionChanged o) (f (m_midiTickPlayed o)).

(** ** The rpc channel *)

(** Modelled from the spec: the rpc channel ([rpcChannel()]) is an external
    collaborator.  [send] hands a message over and returns, [listen]
    registers a handler and returns a token, [unlisten] removes the handler
    registered under a token (and does nothing for any other token). *)
Definition send (msg : Msg) : M unit :=
  modify (set_sent (λ out, out ++ [msg])).

Definition listen (this : ptr) : M ListenID :=
  let! id := gets next_listenID in
  do! modify (set_listeners (λ ls, ls ++ [(id, this)])) in
  do! modify (set_next_listenID (N.succ id)) in
  ret id.

Definition unlisten (id : ListenID) : M unit :=
  modify (set_listeners (filter (λ l, l.1 ≠ id))).

(** Modelled from the spec: the macro [NOT_IMPLEMENTED] of log.h (absent)
    is an explicit not-implemented failure raised to the caller. *)
Definition NOT_IMPLEMENTED {A} : M A := raise NotImplemented.

(** [LOGE() << "not found method: " << msg.method] *)
Definition log_error (text : string) : M unit :=
  modify (set_log (λ l, l ++ [LOGE text])).

(** Modelled from the spec: [Args::arg<T>(i)] (rpctypes.h, absent) decodes
    position [i] at type [T]; a missing position or another type is a
    contract violation that fails at once. *)
Definition arg_Status (a : Args) (i : nat) : M Status :=
  match a !! i with
  | Some (AStatus s) => ret s
  | _ => raise (BadArgument i)
  end.

Definition arg_float (a : Args) (i : nat) : M spec_float :=
  match a !! i with
  | Some (AFloat f) => ret f
  | _ => raise (BadArgument i)
  end.

Definition arg_track_id (a : Args) (i : nat) : M track_id :=
  match a !! i with
  | Some (ATrackId id) => ret id
  | _ => raise (BadArgument i)
  end.

Definition arg_tick_t (a : Args) (i : nat) : M tick_t :=
  match a !! i with
  | Some (ATick t) => ret t
  | _ => raise (BadArgument i)
  end.

(** [std::map::insert]: no effect when the key is taken. *)
Definition map_insert `{Countable K} {V} (m : gmap K V) (k : K) (v : V) : gmap K V :=
  match m !! k with
  | Some _ => m
  | None => <[k := v]> m
  end.

(** ** Channels of ticks *)

(** Modelled from the spec: a [Channel] is handed out by reference, so
    copies of it denote one instance; an instance is kept in [channels] as
    the ticks sent through it.
    [async::Channel<mu::midi::tick_t>()]: a new instance, nothing sent. *)
Definition new_channel : M chan :=
  let! n := gets (λ w, length (channels w)) in
  do! modify (set_channels (λ cs, cs ++ [[]])) in
  ret n.

(** [ch.send(tick)] *)
Definition channel_send (ch : chan) (tick : tick_t) : M unit :=
  modify (set_channels (alter (λ ticks, ticks ++ [tick]) ch)).

(** [m_midiTickPlayed[id]] of [std::map]: the entry for [id], inserted with
    a default-constructed channel when there is none. *)
Definition m_midiTickPlayed_at (this : ptr) (id : track_id) : M chan :=
  let! o := deref this in
  match m_midiTickPlayed o !! id with
  | Some ch => ret ch
  | None =>
      let! ch := new_channel in
      do! update this (set_m_midiTickPlayed <[id := ch]>) in
      ret ch
  end.

(** ** The listener of [setup] *)

(** The lambda [bindMethod]: [calls.insert({ method, call })]. *)
Definition bindMethod (calls : gmap Method Call) (method : Method) (call : Call)
    : gmap Method Call :=
  map_insert calls method call.

Definition on_statusChanged (this : ptr) (a : Args) : M unit :=
  let! s := arg_Status a 0 in
  do! update this (set_m_status s) in
  let! o := deref this in
  update this (push_m_statusChanged (m_status o)).

Definition on_positionChanged (this : ptr) (a : Args) : M unit :=
  let! p := arg_float a 0 in
  do! update this (set_m_playbackPosition p) in
  update this notify_m_positionChanged.

Definition on_midiTickPlayed (this : ptr) (a : Args) : M unit :=
  let! trackID := arg_track_id a 0 in
  let! tick := arg_tick_t a 1 in
  let! ch := m_midiTickPlayed_at this trackID in
  channel_send ch tick.

(** [it->second(msg.args)]: run a stored closure on its captured [this]. *)
Definition invoke (c : Call) (a : Args) : M unit :=
  match call_code c with
  | OnStatusChanged => on_statusChanged (call_this c) a
  | OnPositionChanged => on_positionChanged (call_this c) a
  | OnMidiTickPlayed => on_midiTickPlayed (call_this c) a
  end.

(** What one run of the listener did with the message. *)
Inductive Dispatch :=
  | Skipped
  | NotFound
  | Invoked (c : Call).

(** The block guarded by [calls.empty()]. *)
Definition bind_from_real_sequencer (this : ptr) (calls : gmap Method Call)
    : gmap Method Call :=
  let calls := bindMethod calls "statusChanged" (mkCall this OnStatusChanged) in
  let calls := bindMethod calls "positionChanged" (mkCall this OnPositionChanged) in
  bindMethod calls "midiTickPlayed" (mkCall this OnMidiTickPlayed).

(** The lambda passed to [listen], for the instance [this] it captured. *)
Definition listener (this : ptr) (msg : Msg) : M Dispatch :=
  let! o := deref this in
  if decide (target msg ≠ m_target o) then ret Skipped
  else
    let! empty := gets (λ w, bool_decide (calls w = ∅)) in
    do! (if empty : bool then modify (set_calls (bind_from_real_sequencer this))
         else ret tt) in
    let! it := gets (λ w, calls w !! method msg) in
    match it with
    | None =>
        do! log_error ("not found method: " +:+ method msg) in
        ret NotFound
    | Some call =>
        do! invoke call (args msg) in
        ret (Invoked call)
    end.

(** ** The proxy *)

(** [RpcSequencer()], constructing at address [this] an object whose other
    members start as in [members] (their initialisers are in the header). *)
Definition RpcSequencer_ctor (this : ptr) (members : RpcSequencer) : M unit :=
  modify (set_objects <[this := set_m_target (mkTarget Sequencer) members]>).

(** [~RpcSequencer()] *)
Definition RpcSequencer_dtor (this : ptr) : M unit :=
  let! o := deref this in
  do! unlisten (m_listenID o) in
  modify (set_objects (delete this)).

Definition setup (this : ptr) : M unit :=
  let! id := listen this in
  update this (set_m_listenID id).

Definition status (this : ptr) : M Status :=
  let! o := deref this in ret (m_status o).

Definition statusChanged (this : ptr) : M (list Status) :=
  let! o := deref this in ret (m_statusChanged o).

Definition initMIDITrack (this : ptr) (id : track_id) : M unit :=
  let! o := deref this in
  send (mkMsg (m_target o) "initMIDITrack" (make_arg1 (ATrackId id))).

Definition initAudioTrack (this : ptr) (id : track_id) : M unit :=
  let! o := deref this in
  send (mkMsg (m_target o) "initAudioTrack" (make_arg1 (ATrackId id))).

Definition setMIDITrack (this : ptr) (id : track_id) (stream : handle) : M unit :=
  let! o := deref this in
  let! serialized := gets isSerialized in
  if serialized : bool then NOT_IMPLEMENTED
  else send (mkMsg (m_target o) "setMIDITrack" (make_arg2 (ATrackId id) (AMidiStream stream))).

Definition setAudioTrack (this : ptr) (id : track_id) (stream : handle) : M unit :=
  let! o := deref this in
  let! serialized := gets isSerialized in
  if serialized : bool then NOT_IMPLEMENTED
  else send (mkMsg (m_target o) "setAudioTrack" (make_arg2 (ATrackId id) (AAudioStream stream))).

Definition play (this : ptr) : M unit :=
  let! o := deref this in send (Msg2 (m_target o) "play").

Definition pause (this : ptr) : M unit :=
  let! o := deref this in send (Msg2 (m_target o) "pause").

Definition stop (this : ptr) : M unit :=
  let! o := deref this in send (Msg2 (m_target o) "stop").

Definition seek (this : ptr) (position : N) : M unit :=
  let! o := deref this in
  send (mkMsg (m_target o) "seek" (make_arg1 (AUInt64 position))).

Definition rewind (this : ptr) : M unit :=
  let! o := deref this in send (Msg2 (m_target o) "rewind").

Definition setLoop (this : ptr) (fromMiliSeconds toMiliSeconds : N) : M unit :=
  let! o := deref this in
  send (mkMsg (m_target o) "setLoop"
              (make_arg2 (AUInt64 fromMiliSeconds) (AUInt64 toMiliSeconds))).

Definition unsetLoop (this : ptr) : M unit :=
  let! o := deref this in send (Msg2 (m_target o) "unsetLoop").

Definition midiTickPlayed (this : ptr) (id : track_id) : M chan :=
  let! o := deref this in
  do! (match m_midiTickPlayed o !! id with
       | None =>
           do! send (mkMsg (m_target o) "bindMidiTickPlayed" (make_arg1 (ATrackId id))) in
           let! ch := new_channel in
           update this (set_m_midiTickPlayed (λ m, map_insert m id ch))
       | Some _ => ret tt
       end) in
  m_midiTickPlayed_at this id.

Definition positionChanged (this : ptr) : M nat :=
  let! o := deref this in ret (m_positionChanged o).

Definition playbackPosition (this : ptr) : M spec_float :=
  let! o := deref this in ret (m_playbackPosition o).

(** Returns [nullptr], written [None]. *)
Definition instantlyPlayMidi (this : ptr) (data : MidiData) : M (option handle) :=
  let! o := deref this in
  let! serialized := gets isSerialized in
  do! (if serialized : bool then NOT_IMPLEMENTED
       else send (mkMsg (m_target o) "instantlyPlayMidi" (make_arg1 (AMidiData data)))) in
  ret None.

(** ** Delivery *)

(** Modelled from the spec: the rpc channel hands every message to every
    registered listener (broadcast), here in registration order.  A signal
    raised in one listener ends that listener's run. *)
Fixpoint deliver_to (ls : list (ListenID * ptr)) (msg : Msg) (w : World)
    : list (ListenID * ptr * Result Dispatch) * World :=
  match ls with
  | [] => ([], w)
  | (id, this) :: ls =>
      let (r, w1) := listener this msg w in
      let (rs, w2) := deliver_to ls msg w1 in
      ((id, this, r) :: rs, w2)
  end.

Definition deliver (msg : Msg) (w : World)
    : list (ListenID * ptr * Result Dispatch) * World :=
  deliver_to (listeners w) msg w.

Fixpoint deliver_all (msgs : list Msg) (w : World)
    : list (ListenID * ptr * Result Dispatch) * World :=
  match msgs with
  | [] => ([], w)
  | msg :: msgs =>
      let (rs, w1) := deliver msg w in
      let (rss, w2) := deliver_all msgs w1 in
      (rs ++ rss, w2)
  end.

(** ** Worlds to run on *)

(** A process before any proxy exists: nothing allocated, the static table
    of the listener still empty. *)
Definition boot (serialized : bool) : World :=
  mkWorld ∅ ∅ [] serialized [] 0%N [] [].

(** Member initialisers used in the examples. *)
Definition members0 : RpcSequencer :=
  mkRpcSequencer (mkTarget Undefined) 0%N Stopped [] (S754_zero false) 0 ∅.

(** ** The mutating operations as data *)

(** One call of a mutating operation, with its arguments. *)
Inductive Command :=
  | InitMIDITrack (id : track_id)
  | InitAudioTrack (id : track_id)
  | SetMIDITrack (id : track_id) (stream : handle)
  | SetAudioTrack (id : track_id) (stream : handle)
  | Play
  | Pause
  | Stop
  | Seek (position : N)
  | Rewind
  | SetLoop (fromMiliSeconds toMiliSeconds : N)
  | UnsetLoop
  | InstantlyPlayMidi (data : MidiData).

Definition call (this : ptr) (c : Command) : M unit :=
  match c with
  | InitMIDITrack id => initMIDITrack this id
  | InitAudioTrack id => initAudioTrack this id
  | SetMIDITrack id stream => setMIDITrack this id stream
  | SetAudioTrack id stream => setAudioTrack this id stream
  | Play => play this
  | Pause => pause this
  | Stop => stop this
  | Seek position => seek this position
  | Rewind => rewind this
  | SetLoop a b => setLoop this a b
  | UnsetLoop => unsetLoop this
  | InstantlyPlayMidi data => do! instantlyPlayMidi this data in ret tt
  end.

(** The name of the operation, as the interface spells it. *)
Definition operation_name (c : Command) : Method :=
  match c with
  | InitMIDITrack _ => "initMIDITrack"
  | InitAudioTrack _ => "initAudioTrack"
  | SetMIDITrack _ _ => "setMIDITrack"
  | SetAudioTrack _ _ => "setAudioTrack"
  | Play => "play"
  | Pause => "pause"
  | Stop => "stop"
  | Seek _ => "seek"
  | Rewind => "rewind"
  | SetLoop _ _ => "setLoop"
  | UnsetLoop => "unsetLoop"
  | InstantlyPlayMidi _ => "instantlyPlayMidi"
  end.

(** The parameters of the operation, in the order of its signature. *)
Definition parameters (c : Command) : Args :=
  match c with
  | InitMIDITrack id | InitAudioTrack id => [ATrackId id]
  | SetMIDITrack id stream => [ATrackId id; AMidiStream stream]
  | SetAudioTrack id stream => [ATrackId id; AAudioStream stream]
  | Play | Pause | Stop | Rewind | UnsetLoop => []
  | Seek position => [AUInt64 position]
  | SetLoop a b => [AUInt64 a; AUInt64 b]
  | InstantlyPlayMidi data => [AMidiData data]
  end.

(** The operations that pass a live stream handle. *)
Definition carries_handle (c : Command) : bool :=
  match c with
  | SetMIDITrack _ _ | SetAudioTrack _ _ | InstantlyPlayMidi _ => true
  | _ => false
  end.

(** The world after [msg] was handed to [send], nothing else touched. *)
Definition with_sent (msg : Msg) (w : World) : World :=
  set_sent (λ out, out ++ [msg]) w.

(** The static table as the listener finds it after the [calls.empty()]
    block. *)
Definition table_after (this : ptr) (cs : gmap Method Call) : gmap Method Call :=
  if bool_decide (cs = ∅) then bind_from_real_sequencer this cs else cs.

(** The table is still unbuilt, or it was built by the listener of [this]. *)
Definition dispatches_to (w : World) (this : ptr) : Prop :=
  calls w = ∅ ∨ calls w = bind_from_real_sequencer this ∅.

(** ** Histories of one proxy *)

(** What the owner of a proxy and the rpc channel can do with it, one at a
    time: call a mutating operation, ask for the channel of a track, hand a
    message to its listener. *)
Inductive Action :=
  | Local (c : Command)
  | GetChannel (id : track_id)
  | Inbound (msg : Msg).

Inductive Observed :=
  | Returned
  | Channel (id : track_id) (ch : chan)
  | Dispatched (d : Dispatch).

Definition step (this : ptr) (a : Action) : M Observed :=
  match a with
  | Local c => do! call this c in ret Returned
  | GetChannel id => let! ch := midiTickPlayed this id in ret (Channel id ch)
  | Inbound msg => let! d := listener this msg in ret (Dispatched d)
  end.

(** A raised signal ends the action it was raised in, not the history. *)
Fixpoint run (this : ptr) (acts : list Action) (w : World)
    : list (Result Observed) * World :=
  match acts with
  | [] => ([], w)
  | a :: acts =>
      let (r, w1) := step this a w in
      let (rs, w2) := run this acts w1 in
      (r :: rs, w2)
  end.

(** [msg] asks the engine to start emitting the ticks of track [K]. *)
Definition is_bind_request (K : track_id) (msg : Msg) : bool :=
  bool_decide (method msg = "bindMidiTickPlayed") &&
  match args msg with
  | [ATrackId id] => bool_decide (id = K)
  | _ => false
  end.

Definition bind_requests (K : track_id) (out : list Msg) : nat :=
  length (List.filter (is_bind_request K) out).

(** How an action reaches a track that has no channel yet. *)
Inductive Touch := ByAccess | ByEvent.

(** Whether [a], done on a proxy with target [t], creates the channel of
    [K]: a local access to [K], or an inbound [midiTickPlayed] for [K] that
    passes the target check and decodes. *)
Definition touches (t : Target) (K : track_id) (a : Action) : option Touch :=
  match a with
  | Local _ => None
  | GetChannel id => if decide (id = K) then Some ByAccess else None
  | Inbound msg =>
      if decide (target msg = t ∧ method msg = "midiTickPlayed") then
        match args msg with
        | ATrackId id :: ATick _ :: _ => if decide (id = K) then Some ByEvent else None
        | _ => None
        end
      else None
  end.



(** The channel registered for track [K] in proxy [this], if any. *)
Definition registry (w : World) (this : ptr) (K : track_id) : option chan :=
  objects w !! this ≫= λ o, m_midiTickPlayed o !! K.

(** Proxy [this] is live with target [t] and the handlers in the static
    table, if built, are its own. *)
Definition own_proxy (w : World) (this : ptr) (t : Target) : Prop :=
  (∃ o, objects w !! this = Some o ∧ m_target o = t) ∧ dispatches_to w this.

(** From [w] to [w1] the proxy stays as [own_proxy] has it, the channel
    registered for [K] is the same, no bind request for [K] was sent, and
    every channel kept the ticks it had received, in order. *)
Definition preserved (this : ptr) (t : Target) (K : track_id) (w w1 : World) : Prop :=
  (own_proxy w this t → own_proxy w1 this t) ∧
  registry w1 this K = registry w this K ∧
  bind_requests K (sent w1) = bind_requests K (sent w) ∧
  (∀ (c : chan) (h : list tick_t),
     channels w !! c = Some h → ∃ h', channels w1 !! c = Some (h ++ h')).

(** The world after a new channel was created and registered for [id]. *)
Definition with_channel_for (this : ptr) (o : RpcSequencer) (id : track_id) (w : World)
    : World :=
  set_objects <[this := set_m_midiTickPlayed <[id := length (channels w)]> o]>
              (set_channels (λ cs, cs ++ [[]]) w).

(** The world after [tick] was sent through channel [ch]. *)
Definition with_tick (ch : chan) (tick : tick_t) (w : World) : World :=
  set_channels (alter (λ ticks, ticks ++ [tick]) ch) w.


(** A message that does not decode as [midiTickPlayed(track, tick)]. *)
Definition undecodable_tick (a : Args) : Prop :=
  match a with
  | ATrackId _ :: ATick _ :: _ => False
  | _ => True
  end.

(** No closure in the static table captures [this]. *)
Definition no_closure_of (this : ptr) (w : World) : Prop :=
  ∀ (m : Method) (c : Call), calls w !! m = Some c → call_this c ≠ this.

(** ** Reading a history *)

(** What an action is to a proxy with target [t]: an inbound event that
    passes the target check, names a bound method and decodes; a local
    access to a track; or anything else (a mutating call, a message that is
    skipped, not found or does not decode). *)
Inductive Kind :=
  | KStatus (s : Status)
  | KPosition (p : spec_float)
  | KTick (id : track_id) (tick : tick_t)
  | KAccess (id : track_id)
  | KOther.

Definition kind (t : Target) (a : Action) : Kind :=
  match a with
  | Local _ => KOther
  | GetChannel id => KAccess id
  | Inbound msg =>
      if decide (target msg = t) then
        if decide (method msg = "statusChanged") then
          match args msg with AStatus s :: _ => KStatus s | _ => KOther end
        else if decide (method msg = "positionChanged") then
          match args msg with AFloat p :: _ => KPosition p | _ => KOther end
        else if decide (method msg = "midiTickPlayed") then
          match args msg with
          | ATrackId id :: ATick tick :: _ => KTick id tick
          | _ => KOther
          end
        else KOther
      else KOther
  end.

(** The members of the proxy after one action, [n] channels existing. *)
Definition object_after (t : Target) (a : Action) (n : nat) (o : RpcSequencer)
    : RpcSequencer :=
  match kind t a with
  | KStatus s => push_m_statusChanged s (set_m_status s o)
  | KPosition p => notify_m_positionChanged (set_m_playbackPosition p o)
  | KTick id _ | KAccess id =>
      match m_midiTickPlayed o !! id with
      | Some _ => o
      | None => set_m_midiTickPlayed <[id := n]> o
      end
  | KOther => o
  end.

(** The channels after one action of the proxy with members [o]. *)
Definition channels_after (t : Target) (a : Action) (o : RpcSequencer)
    (chs : list (list tick_t)) : list (list tick_t) :=
  match kind t a with
  | KTick id tick =>
      match m_midiTickPlayed o !! id with
      | Some ch => alter (λ ticks, ticks ++ [tick]) ch chs
      | None => alter (λ ticks, ticks ++ [tick]) (length chs) (chs ++ [[]])
      end
  | KAccess id =>
      match m_midiTickPlayed o !! id with
      | Some _ => chs
      | None => chs ++ [[]]
      end
  | _ => chs
  end.




(** Every registered channel exists and no two tracks share one. *)
Definition registry_ok (w : World) (this : ptr) : Prop :=
  (∀ K c, registry w this K = Some c → c < length (channels w)) ∧
  (∀ K1 K2 c, registry w this K1 = Some c → registry w this K2 = Some c → K1 = K2).

(** The message of a mutating call. *)
Definition command_message (t : Target) (c : Command) : Msg :=
  mkMsg t (operation_name c) (parameters c).

(** The calls that get past the guard on the transport mode. *)
Definition passes_guard (serialized : bool) (c : Command) : bool :=
  negb (carries_handle c && serialized).

(** The number of local actions (calls and accesses) in a history. *)
Definition local_actions (acts : list Action) : nat :=
  length (List.filter (λ a, match a with Inbound _ => false | _ => true end) acts).


(** From [w] to [w1] the proxy [this], if live, stays live with its target,
    and every track keeps the channel registered for it. *)
Definition keeps (this : ptr) (w w1 : World) : Prop :=
  ∀ o, objects w !! this = Some o →
       ∃ o1, objects w1 !! this = Some o1 ∧
             m_target o1 = m_target o ∧
             ∀ K ch, m_midiTickPlayed o !! K = Some ch →
                     m_midiTickPlayed o1 !! K = Some ch.

(** The bind requests for [K] that action [a] sends, on a proxy with
    members [o]: one for an access to [K] that finds no channel. *)
Definition access_binds (K : track_id) (o : RpcSequencer) (a : Action) : nat :=
  match a with
  | GetChannel id =>
      if decide (id = K) then
        match m_midiTickPlayed o !! K with None => 1 | Some _ => 0 end
      else 0
  | _ => 0
  end.


(** * Properties *)

(** ** Running computations *)

#[local] Arguments on_statusChanged : simpl never.
#[local] Arguments on_positionChanged : simpl never.
#[local] Arguments on_midiTickPlayed : simpl never.
#[local] Arguments midiTickPlayed : simpl never.
#[local] Arguments listener : simpl never.
#[local] Arguments call : simpl never.
#[local] Arguments bind_requests : simpl never.

Lemma deref_live w this o :
  objects w !! this = Some o → deref this w = (Ok o, w).
Proof. intros H. unfold deref. by rewrite H. Qed.

Lemma set_objects_id w : set_objects (λ m, m) w = w.
Proof. by destruct w. Qed.

Lemma set_calls_id w : set_calls (λ m, m) w = w.
Proof. by destruct w. Qed.

Lemma bind_deref {A} w this o (k : RpcSequencer → M A) :
  objects w !! this = Some o → bind (deref this) k w = k o w.
Proof. intros H. unfold bind. by rewrite (deref_live _ _ _ H). Qed.

Lemma update_live w this o f :
  objects w !! this = Some o →
  update this f w = (Ok tt, set_objects <[this := f o]> w).
Proof.
  intros H. unfold update. rewrite (bind_deref _ _ _ _ H).
  unfold modify, set_objects. do 2 f_equal.
  apply map_eq. intros i. rewrite lookup_alter, lookup_insert.
  destruct (decide (this = i)) as [<-|]; by rewrite ?H.
Qed.

(** ** Serialized and direct transports *)

(** C1. With a serialized rpc channel, [setMIDITrack], [setAudioTrack] and
    [instantlyPlayMidi] end at once with the not-implemented signal and leave
    the world (so also the sent messages) as it was; with a direct channel
    each sends exactly one message that carries its arguments as given. *)
Theorem transport_mode_guard (w : World) (this : ptr) (o : RpcSequencer)
    (id : track_id) (stream : handle) (data : MidiData) :
  objects w !! this = Some o →
  (isSerialized w = true →
     setMIDITrack this id stream w = (Raised NotImplemented, w) ∧
     setAudioTrack this id stream w = (Raised NotImplemented, w) ∧
     instantlyPlayMidi this data w = (Raised NotImplemented, w)) ∧
  (isSerialized w = false →
     setMIDITrack this id stream w =
       (Ok tt, with_sent (mkMsg (m_target o) "setMIDITrack"
                                [ATrackId id; AMidiStream stream]) w) ∧
     setAudioTrack this id stream w =
       (Ok tt, with_sent (mkMsg (m_target o) "setAudioTrack"
                                [ATrackId id; AAudioStream stream]) w) ∧
     instantlyPlayMidi this data w =
       (Ok None, with_sent (mkMsg (m_target o) "instantlyPlayMidi"
                                  [AMidiData data]) w)).
Proof.
  intros Hlive.
  unfold setMIDITrack, setAudioTrack, instantlyPlayMidi.
  rewrite !(bind_deref _ _ _ _ Hlive).
  split; intros Hmode; unfold bind, gets; rewrite Hmode; done.
Qed.

Lemma transport_mode_guard_witness :
  let w := snd (RpcSequencer_ctor 1%N members0 (boot true)) in
  setMIDITrack 1%N 7%N 9%N w = (Raised NotImplemented, w).
Proof.
  intros w.
  refine (proj1 (proj1 (transport_mode_guard w 1%N
            (set_m_target (mkTarget Sequencer) members0) 7%N 9%N (mkMidiData 9%N) _) _)).
  - vm_compute. reflexivity.
  - reflexivity.
Defined.

(** ** One message per call *)

Lemma call_sends (c : Command) (w : World) (this : ptr) (o : RpcSequencer) :
  objects w !! this = Some o →
  carries_handle c = false ∨ isSerialized w = false →
  call this c w =
    (Ok tt, with_sent (mkMsg (m_target o) (operation_name c) (parameters c)) w).
Proof.
  intros Hlive Hmode.
  destruct c; simpl in *;
    unfold call, initMIDITrack, initAudioTrack, setMIDITrack, setAudioTrack, play,
      pause, stop, seek, rewind, setLoop, unsetLoop, instantlyPlayMidi;
    unfold bind, gets, deref; rewrite Hlive; try reflexivity;
    (destruct Hmode as [Hmode | Hmode]; [discriminate |]);
    rewrite Hmode; reflexivity.
Qed.

Lemma call_refused (c : Command) (w : World) (this : ptr) (o : RpcSequencer) :
  objects w !! this = Some o →
  carries_handle c = true →
  isSerialized w = true →
  call this c w = (Raised NotImplemented, w).
Proof.
  intros Hlive Hc Hmode.
  destruct c; try discriminate Hc;
    unfold call, setMIDITrack, setAudioTrack, instantlyPlayMidi;
    unfold bind, gets, deref; rewrite Hlive, Hmode; reflexivity.
Qed.

(** C5, amended.  Every mutating operation other than the three that pass
    a stream handle, and those three too when the rpc channel is direct,
    returns at once having handed exactly one message to [send]: it is
    addressed to the proxy's own target, named after the operation and
    carries the parameters in order.  Nothing else in the world changes, so
    nothing is awaited. *)
Theorem one_message_per_call (c : Command) (w : World) (this : ptr) (o : RpcSequencer) :
  objects w !! this = Some o →
  carries_handle c = false ∨ isSerialized w = false →
  call this c w =
    (Ok tt, with_sent (mkMsg (m_target o) (operation_name c) (parameters c)) w).
Proof. apply call_sends. Qed.

Lemma one_message_per_call_witness :
  let w := snd (RpcSequencer_ctor 1%N members0 (boot true)) in
  call 1%N (SetLoop 10%N 20%N) w =
    (Ok tt, with_sent (mkMsg (mkTarget Sequencer) "setLoop" [AUInt64 10%N; AUInt64 20%N]) w).
Proof.
  intros w.
  refine (one_message_per_call (SetLoop 10%N 20%N) w 1%N
            (set_m_target (mkTarget Sequencer) members0) _ _).
  - vm_compute. reflexivity.
  - left. reflexivity.
Defined.

(** C5 as stated fails: over a serialized rpc channel [setMIDITrack] hands
    nothing to [send]. *)
Lemma serialized_call_sends_nothing :
  ¬ (∀ (c : Command) (w : World) (this : ptr) (o : RpcSequencer),
       objects w !! this = Some o →
       sent (call this c w).2 =
         sent w ++ [mkMsg (m_target o) (operation_name c) (parameters c)]).
Proof.
  intros H.
  specialize (H (SetMIDITrack 7%N 9%N)
                (RpcSequencer_ctor 1%N members0 (boot true)).2 1%N
                (set_m_target (mkTarget Sequencer) members0)).
  vm_compute in H. specialize (H eq_refl). discriminate H.
Qed.

(** ** The target filter and unknown methods *)

Lemma listener_skips (w : World) (this : ptr) (o : RpcSequencer) (msg : Msg) :
  objects w !! this = Some o →
  target msg ≠ m_target o →
  listener this msg w = (Ok Skipped, w).
Proof.
  intros Hlive Hne. unfold listener.
  rewrite (bind_deref _ _ _ _ Hlive).
  by destruct (decide (target msg ≠ m_target o)).
Qed.

(** The listener past the target check: the table is built if empty, then
    searched. *)
Lemma listener_addressed (w : World) (this : ptr) (o : RpcSequencer) (msg : Msg) :
  objects w !! this = Some o →
  target msg = m_target o →
  listener this msg w =
    let w1 := set_calls (table_after this) w in
    match table_after this (calls w) !! method msg with
    | None =>
        (Ok NotFound, set_log (λ l, l ++ [LOGE ("not found method: " +:+ method msg)]) w1)
    | Some c =>
        (do! invoke c (args msg) in ret (Invoked c)) w1
    end.
Proof.
  intros Hlive Heq. unfold listener.
  rewrite (bind_deref _ _ _ _ Hlive).
  destruct (decide (target msg ≠ m_target o)) as [|_]; [done|].
  unfold table_after, set_calls, log_error, set_log, bind, gets, modify, ret.
  destruct w as [objs cs chs ser ls nid out lg]; cbn.
  destruct (bool_decide (cs = ∅)); cbn.
  - destruct (bind_from_real_sequencer this cs !! method msg); reflexivity.
  - destruct (cs !! method msg); reflexivity.
Qed.

Lemma lookup_built_table (q : ptr) (m : Method) :
  bind_from_real_sequencer q ∅ !! m =
    if decide (m = "statusChanged") then Some (mkCall q OnStatusChanged)
    else if decide (m = "positionChanged") then Some (mkCall q OnPositionChanged)
    else if decide (m = "midiTickPlayed") then Some (mkCall q OnMidiTickPlayed)
    else None.
Proof.
  unfold bind_from_real_sequencer, bindMethod, map_insert.
  rewrite lookup_empty.
  rewrite lookup_insert_ne by done. rewrite lookup_empty.
  rewrite lookup_insert_ne by done. rewrite lookup_insert_ne by done.
  rewrite lookup_empty.
  repeat case_decide; subst; simplify_map_eq; done.
Qed.

Lemma built_table_nonempty (q : ptr) : bind_from_real_sequencer q ∅ ≠ ∅.
Proof.
  intros H. pose proof (lookup_built_table q "statusChanged") as L.
  rewrite H, lookup_empty in L. by case_decide.
Qed.

(** C4. A message addressed to [T2] that reaches the listener of a proxy
    whose target is [T1], with [T1] and [T2] different, is ignored: the
    listener returns before the table of handlers is built or searched,
    whatever that table holds, and no handler is invoked. *)
Theorem foreign_target_ignored (T1 T2 : Target) (w : World) (this : ptr)
    (o : RpcSequencer) (msg : Msg) :
  T1 ≠ T2 →
  objects w !! this = Some o →
  m_target o = T1 →
  target msg = T2 →
  listener this msg w = (Ok Skipped, w) ∧
  (∀ cs : gmap Method Call,
     listener this msg (set_calls (λ _, cs) w) = (Ok Skipped, set_calls (λ _, cs) w)) ∧
  (∀ c : Call, (listener this msg w).1 ≠ Ok (Invoked c)).
Proof.
  intros Hne Hlive <- <-.
  assert (target msg ≠ m_target o) as Hne' by congruence.
  split; [|split].
  - by apply listener_skips with o.
  - intros cs. by apply listener_skips with o.
  - intros c. by rewrite (listener_skips _ _ _ _ Hlive Hne').
Qed.

Lemma foreign_target_ignored_witness :
  let w := (do! RpcSequencer_ctor 1%N members0 in setup 1%N) (boot false) in
  listener 1%N (mkMsg (mkTarget AudioEngine) "statusChanged" [AStatus Playing]) w.2
    = (Ok Skipped, w.2).
Proof.
  intros w.
  refine (proj1 (foreign_target_ignored (mkTarget Sequencer) (mkTarget AudioEngine)
            w.2 1%N (set_m_listenID 0%N (set_m_target (mkTarget Sequencer) members0))
            (mkMsg (mkTarget AudioEngine) "statusChanged" [AStatus Playing]) _ _ _ _)).
  - discriminate.
  - vm_compute. reflexivity.
  - reflexivity.
  - reflexivity.
Defined.

(** C8. A message for the proxy's own target whose method the table does
    not hold is logged and dropped: the listener returns normally, having
    invoked no handler and raised nothing; only the log line is added (and
    the table built, if this was its first use). *)
Theorem unknown_method_dropped (w : World) (this : ptr) (o : RpcSequencer) (msg : Msg) :
  objects w !! this = Some o →
  target msg = m_target o →
  table_after this (calls w) !! method msg = None →
  listener this msg w =
    (Ok NotFound,
     set_log (λ l, l ++ [LOGE ("not found method: " +:+ method msg)])
             (set_calls (table_after this) w)).
Proof.
  intros Hlive Heq Hnone.
  rewrite (listener_addressed _ _ _ _ Hlive Heq). cbn. by rewrite Hnone.
Qed.

Lemma unknown_method_dropped_witness :
  let w := (do! RpcSequencer_ctor 1%N members0 in setup 1%N) (boot false) in
  let msg := mkMsg (mkTarget Sequencer) "volumeChanged" [AFloat (S754_zero false)] in
  listener 1%N msg w.2 =
    (Ok NotFound,
     set_log (λ l, l ++ [LOGE "not found method: volumeChanged"])
             (set_calls (table_after 1%N) w.2)).
Proof.
  intros w msg.
  refine (unknown_method_dropped w.2 1%N
            (set_m_listenID 0%N (set_m_target (mkTarget Sequencer) members0)) msg _ _ _).
  - vm_compute. reflexivity.
  - reflexivity.
  - vm_compute. reflexivity.
Defined.

(** C10. A message the listener drops, because it is addressed to another
    target or because its method is not in the table, changes no proxy
    object (so neither cached status, cached position nor the registry of
    per-track channels), no channel, and hands nothing to [send]. *)
Theorem dropped_message_frame (w : World) (this : ptr) (o : RpcSequencer) (msg : Msg) :
  objects w !! this = Some o →
  target msg ≠ m_target o ∨
    (target msg = m_target o ∧ table_after this (calls w) !! method msg = None) →
  ∃ (d : Dispatch) (w' : World),
    listener this msg w = (Ok d, w') ∧
    (d = Skipped ∨ d = NotFound) ∧
    objects w' = objects w ∧
    status this w' = (Ok (m_status o), w') ∧
    playbackPosition this w' = (Ok (m_playbackPosition o), w') ∧
    (m_midiTickPlayed <$> objects w' !! this) = Some (m_midiTickPlayed o) ∧
    channels w' = channels w ∧
    sent w' = sent w.
Proof.
  intros Hlive [Hne | [Heq Hnone]].
  - exists Skipped, w. rewrite (listener_skips _ _ _ _ Hlive Hne).
    unfold status, playbackPosition. rewrite !(bind_deref _ _ _ _ Hlive), Hlive.
    repeat split; auto.
  - eexists NotFound, _.
    rewrite (listener_addressed _ _ _ _ Hlive Heq). cbn. rewrite Hnone.
    split; [reflexivity|].
    unfold status, playbackPosition.
    rewrite !(bind_deref _ _ o) by (cbn; exact Hlive).
    cbn. rewrite Hlive. repeat split; auto.
Qed.

Lemma dropped_message_frame_witness :
  let w := (do! RpcSequencer_ctor 1%N members0 in setup 1%N) (boot false) in
  let msg := mkMsg (mkTarget Sequencer) "volumeChanged" [] in
  ∃ (d : Dispatch) (w' : World),
    listener 1%N msg w.2 = (Ok d, w') ∧
    (d = Skipped ∨ d = NotFound) ∧
    objects w' = objects w.2 ∧
    status 1%N w' = (Ok Stopped, w') ∧
    playbackPosition 1%N w' = (Ok (S754_zero false), w') ∧
    (m_midiTickPlayed <$> objects w' !! 1%N) = Some ∅ ∧
    channels w' = channels w.2 ∧
    sent w' = sent w.2.
Proof.
  intros w msg.
  refine (dropped_message_frame w.2 1%N
            (set_m_listenID 0%N (set_m_target (mkTarget Sequencer) members0)) msg _ _).
  - vm_compute. reflexivity.
  - right. split; vm_compute; reflexivity.
Defined.

(** ** Cached state *)

Lemma lookup_statusChanged (q : ptr) :
  bind_from_real_sequencer q ∅ !! "statusChanged" = Some (mkCall q OnStatusChanged).
Proof. rewrite lookup_built_table. reflexivity. Qed.

Lemma lookup_positionChanged (q : ptr) :
  bind_from_real_sequencer q ∅ !! "positionChanged" = Some (mkCall q OnPositionChanged).
Proof. rewrite lookup_built_table. reflexivity. Qed.

Lemma lookup_midiTickPlayed (q : ptr) :
  bind_from_real_sequencer q ∅ !! "midiTickPlayed" = Some (mkCall q OnMidiTickPlayed).
Proof. rewrite lookup_built_table. reflexivity. Qed.

Lemma table_after_own (w : World) (this : ptr) :
  dispatches_to w this →
  table_after this (calls w) = bind_from_real_sequencer this ∅.
Proof.
  unfold table_after. intros [-> | ->].
  - by rewrite bool_decide_eq_true_2.
  - by rewrite bool_decide_eq_false_2 by apply built_table_nonempty.
Qed.

Lemma dispatches_to_after (w : World) (this : ptr) :
  dispatches_to w this → dispatches_to (set_calls (table_after this) w) this.
Proof. intros H. right. cbn. by apply table_after_own. Qed.

(** The listener of a proxy whose handlers are its own, on a message for
    its target. *)
Lemma listener_own (w : World) (this : ptr) (o : RpcSequencer) (msg : Msg) :
  objects w !! this = Some o →
  dispatches_to w this →
  target msg = m_target o →
  listener this msg w =
    let w1 := set_calls (table_after this) w in
    match bind_from_real_sequencer this ∅ !! method msg with
    | None =>
        (Ok NotFound, set_log (λ l, l ++ [LOGE ("not found method: " +:+ method msg)]) w1)
    | Some c =>
        (do! invoke c (args msg) in ret (Invoked c)) w1
    end.
Proof.
  intros Hlive Hown Heq.
  rewrite (listener_addressed _ _ _ _ Hlive Heq).
  by rewrite (table_after_own _ _ Hown).
Qed.

Lemma on_statusChanged_live (w : World) (this : ptr) (o : RpcSequencer)
    (s : Status) (rest : Args) :
  objects w !! this = Some o →
  on_statusChanged this (AStatus s :: rest) w =
    (Ok tt, set_objects <[this := push_m_statusChanged s (set_m_status s o)]> w).
Proof.
  intros Hlive. unfold on_statusChanged, arg_Status. cbn.
  unfold bind at 1. rewrite (update_live _ _ _ _ Hlive).
  assert (objects (set_objects <[this:=set_m_status s o]> w) !! this
          = Some (set_m_status s o)) as Hlive' by (cbn; apply lookup_insert_eq).
  rewrite (bind_deref _ _ _ _ Hlive'), (update_live _ _ _ _ Hlive').
  f_equal. destruct w; unfold set_objects; cbn. f_equal. apply insert_insert_eq.
Qed.

Lemma on_positionChanged_live (w : World) (this : ptr) (o : RpcSequencer)
    (p : spec_float) (rest : Args) :
  objects w !! this = Some o →
  on_positionChanged this (AFloat p :: rest) w =
    (Ok tt, set_objects <[this := notify_m_positionChanged (set_m_playbackPosition p o)]> w).
Proof.
  intros Hlive. unfold on_positionChanged, arg_float. cbn.
  unfold bind at 1. rewrite (update_live _ _ _ _ Hlive).
  assert (objects (set_objects <[this:=set_m_playbackPosition p o]> w) !! this
          = Some (set_m_playbackPosition p o)) as Hlive' by (cbn; apply lookup_insert_eq).
  rewrite (update_live _ _ _ _ Hlive').
  f_equal. destruct w; unfold set_objects; cbn. f_equal. apply insert_insert_eq.
Qed.

(** For a proxy whose handlers in the table are its own:
    [statusChanged(S)] sets the cached status to [S] and pushes [S] to the
    status channel, [positionChanged(P)] sets the cached position to [P]
    and emits one notification, neither sends a message, and [status()] and
    [playbackPosition()] return the cached value and leave the world as it
    is. *)
Theorem cached_state_follows_events (w : World) (this : ptr) (o : RpcSequencer)
    (S : Status) (P : spec_float) (rest : Args) :
  objects w !! this = Some o →
  dispatches_to w this →
  (∃ (w1 : World) (o1 : RpcSequencer),
     listener this (mkMsg (m_target o) "statusChanged" (AStatus S :: rest)) w
       = (Ok (Invoked (mkCall this OnStatusChanged)), w1) ∧
     objects w1 !! this = Some o1 ∧
     m_status o1 = S ∧
     m_statusChanged o1 = m_statusChanged o ++ [S] ∧
     status this w1 = (Ok S, w1) ∧
     sent w1 = sent w) ∧
  (∃ (w2 : World) (o2 : RpcSequencer),
     listener this (mkMsg (m_target o) "positionChanged" (AFloat P :: rest)) w
       = (Ok (Invoked (mkCall this OnPositionChanged)), w2) ∧
     objects w2 !! this = Some o2 ∧
     m_playbackPosition o2 = P ∧
     m_positionChanged o2 = Datatypes.S (m_positionChanged o) ∧
     playbackPosition this w2 = (Ok P, w2) ∧
     sent w2 = sent w) ∧
  status this w = (Ok (m_status o), w) ∧
  playbackPosition this w = (Ok (m_playbackPosition o), w).
Proof.
  intros Hlive Hown.
  assert (objects (set_calls (table_after this) w) !! this = Some o) as Hlive1
    by exact Hlive.
  split; [|split; [|split]].
  - eexists _, _.
    rewrite (listener_own w this o (mkMsg (m_target o) _ _) Hlive Hown eq_refl).
    cbn. rewrite lookup_statusChanged.
    unfold bind at 1, invoke. cbn.
    rewrite (on_statusChanged_live _ _ _ _ _ Hlive1).
    split; [reflexivity|]. split; [apply lookup_insert_eq|].
    split; [reflexivity|]. split; [reflexivity|].
    split; [|reflexivity].
    unfold status. erewrite bind_deref by apply lookup_insert_eq. reflexivity.
  - eexists _, _.
    rewrite (listener_own w this o (mkMsg (m_target o) _ _) Hlive Hown eq_refl).
    cbn. rewrite lookup_positionChanged.
    unfold bind at 1, invoke. cbn.
    rewrite (on_positionChanged_live _ _ _ _ _ Hlive1).
    split; [reflexivity|]. split; [apply lookup_insert_eq|].
    split; [reflexivity|]. split; [reflexivity|].
    split; [|reflexivity].
    unfold playbackPosition. erewrite bind_deref by apply lookup_insert_eq. reflexivity.
  - unfold status. by rewrite (bind_deref _ _ _ _ Hlive).
  - unfold playbackPosition. by rewrite (bind_deref _ _ _ _ Hlive).
Qed.

Lemma cached_state_follows_events_witness :
  let w := (do! RpcSequencer_ctor 1%N members0 in setup 1%N) (boot false) in
  ∃ (w1 : World) (o1 : RpcSequencer),
    listener 1%N (mkMsg (mkTarget Sequencer) "statusChanged" [AStatus Playing]) w.2
      = (Ok (Invoked (mkCall 1%N OnStatusChanged)), w1) ∧
    objects w1 !! 1%N = Some o1 ∧
    m_status o1 = Playing ∧
    m_statusChanged o1 = [Playing] ∧
    status 1%N w1 = (Ok Playing, w1) ∧
    sent w1 = [].
Proof.
  intros w.
  refine (proj1 (cached_state_follows_events w.2 1%N
            (set_m_listenID 0%N (set_m_target (mkTarget Sequencer) members0))
            Playing (S754_zero false) [] _ _)).
  - vm_compute. reflexivity.
  - left. vm_compute. reflexivity.
Defined.

(** ** The registry of per-track channels *)

Lemma set_m_midiTickPlayed_ext (f g : gmap track_id chan → gmap track_id chan)
    (o : RpcSequencer) :
  f (m_midiTickPlayed o) = g (m_midiTickPlayed o) →
  set_m_midiTickPlayed f o = set_m_midiTickPlayed g o.
Proof. intros H. unfold set_m_midiTickPlayed. by rewrite H. Qed.

Lemma midiTickPlayed_bound (w : World) (this : ptr) (o : RpcSequencer)
    (id : track_id) (ch : chan) :
  objects w !! this = Some o →
  m_midiTickPlayed o !! id = Some ch →
  midiTickPlayed this id w = (Ok ch, w).
Proof.
  intros Hlive Hreg. unfold midiTickPlayed.
  rewrite (bind_deref _ _ _ _ Hlive), Hreg.
  unfold bind at 1, ret at 1. unfold m_midiTickPlayed_at.
  by rewrite (bind_deref _ _ _ _ Hlive), Hreg.
Qed.

Lemma midiTickPlayed_unbound (w : World) (this : ptr) (o : RpcSequencer) (id : track_id) :
  objects w !! this = Some o →
  m_midiTickPlayed o !! id = None →
  midiTickPlayed this id w =
    (Ok (length (channels w)),
     with_channel_for this o id
       (with_sent (mkMsg (m_target o) "bindMidiTickPlayed" [ATrackId id]) w)).
Proof.
  intros Hlive Hreg. unfold midiTickPlayed.
  rewrite (bind_deref _ _ _ _ Hlive), Hreg.
  unfold bind at 1. unfold bind at 1, send, modify.
  unfold bind at 1, new_channel.
  unfold bind at 1, gets. unfold bind at 1, modify, ret.
  set (w1 := set_channels _ _).
  assert (objects w1 !! this = Some o) as Hlive1 by exact Hlive.
  rewrite (update_live _ _ _ _ Hlive1).
  unfold m_midiTickPlayed_at.
  erewrite bind_deref by (cbn; apply lookup_insert_eq).
  cbn [channels set_sent].
  rewrite !(set_m_midiTickPlayed_ext _ <[id := length (channels w)]> o)
    by (unfold map_insert; by rewrite Hreg).
  cbn. rewrite lookup_insert_eq.
  reflexivity.
Qed.

Lemma on_midiTickPlayed_bound (w : World) (this : ptr) (o : RpcSequencer)
    (id : track_id) (ch : chan) (tick : tick_t) (rest : Args) :
  objects w !! this = Some o →
  m_midiTickPlayed o !! id = Some ch →
  on_midiTickPlayed this (ATrackId id :: ATick tick :: rest) w
    = (Ok tt, with_tick ch tick w).
Proof.
  intros Hlive Hreg. unfold on_midiTickPlayed, arg_track_id, arg_tick_t. cbn.
  unfold bind at 1, m_midiTickPlayed_at.
  by rewrite (bind_deref _ _ _ _ Hlive), Hreg.
Qed.

Lemma on_midiTickPlayed_unbound (w : World) (this : ptr) (o : RpcSequencer)
    (id : track_id) (tick : tick_t) (rest : Args) :
  objects w !! this = Some o →
  m_midiTickPlayed o !! id = None →
  on_midiTickPlayed this (ATrackId id :: ATick tick :: rest) w
    = (Ok tt, with_tick (length (channels w)) tick (with_channel_for this o id w)).
Proof.
  intros Hlive Hreg. unfold on_midiTickPlayed, arg_track_id, arg_tick_t. cbn.
  unfold bind at 1, m_midiTickPlayed_at.
  rewrite (bind_deref _ _ _ _ Hlive), Hreg.
  unfold bind at 1, new_channel.
  unfold bind at 1, gets. unfold bind at 1, modify, ret.
  set (w1 := set_channels _ _).
  assert (objects w1 !! this = Some o) as Hlive1 by exact Hlive.
  unfold bind at 1. rewrite (update_live _ _ _ _ Hlive1).
  reflexivity.
Qed.

Lemma on_midiTickPlayed_undecodable (w : World) (this : ptr) (a : Args) :
  undecodable_tick a →
  ∃ i, on_midiTickPlayed this a w = (Raised (BadArgument i), w).
Proof.
  intros Hbad. unfold on_midiTickPlayed, arg_track_id, arg_tick_t.
  destruct a as [|[] [|[] ?]]; cbn in *; try done; eauto.
Qed.

Lemma on_statusChanged_cases (w : World) (this : ptr) (o : RpcSequencer) (a : Args) :
  objects w !! this = Some o →
  (∃ i, on_statusChanged this a w = (Raised (BadArgument i), w)) ∨
  (∃ s, on_statusChanged this a w =
          (Ok tt, set_objects <[this := push_m_statusChanged s (set_m_status s o)]> w)).
Proof.
  intros Hlive.
  destruct a as [|[] rest];
    try (left; eexists; unfold on_statusChanged, arg_Status; cbn; reflexivity).
  right. eexists. by apply on_statusChanged_live.
Qed.

Lemma on_positionChanged_cases (w : World) (this : ptr) (o : RpcSequencer) (a : Args) :
  objects w !! this = Some o →
  (∃ i, on_positionChanged this a w = (Raised (BadArgument i), w)) ∨
  (∃ p, on_positionChanged this a w =
          (Ok tt, set_objects
                    <[this := notify_m_positionChanged (set_m_playbackPosition p o)]> w)).
Proof.
  intros Hlive.
  destruct a as [|[] rest];
    try (left; eexists; unfold on_positionChanged, arg_float; cbn; reflexivity).
  right. eexists. by apply on_positionChanged_live.
Qed.

(** ** What a step leaves alone *)

Lemma bind_requests_snoc (K : track_id) (out : list Msg) (msg : Msg) :
  bind_requests K (out ++ [msg]) =
    bind_requests K out + (if is_bind_request K msg then 1 else 0).
Proof.
  unfold bind_requests. rewrite List.filter_app, length_app. cbn.
  by destruct (is_bind_request K msg).
Qed.

Lemma operation_is_no_bind_request (K : track_id) (t : Target) (c : Command) :
  is_bind_request K (mkMsg t (operation_name c) (parameters c)) = false.
Proof. by destruct c. Qed.

Lemma preserved_by_fields (this : ptr) (t : Target) (K : track_id) (w w1 : World) :
  (∀ o, objects w !! this = Some o →
        ∃ o1, objects w1 !! this = Some o1 ∧ m_target o1 = m_target o ∧
              m_midiTickPlayed o1 !! K = m_midiTickPlayed o !! K) →
  (objects w !! this = None → objects w1 !! this = None) →
  (dispatches_to w this → dispatches_to w1 this) →
  bind_requests K (sent w1) = bind_requests K (sent w) →
  (∀ c h, channels w !! c = Some h → ∃ h', channels w1 !! c = Some (h ++ h')) →
  preserved this t K w w1.
Proof.
  intros Hobj Hnone Hcalls Hsent Hch. repeat split; auto.
  - destruct H as [[o [Hlive Ht]] _].
    destruct (Hobj o Hlive) as (o1 & ? & ? & ?). exists o1. split; congruence.
  - apply Hcalls, H.
  - unfold registry. destruct (objects w !! this) as [o|] eqn:Hlive.
    + destruct (Hobj o eq_refl) as (o1 & -> & _ & ?). done.
    + by rewrite Hnone.
Qed.

Lemma same_channels (w w1 : World) :
  channels w1 = channels w →
  ∀ c h, channels w !! c = Some h → ∃ h', channels w1 !! c = Some (h ++ h').
Proof. intros -> c h H. exists []. by rewrite app_nil_r. Qed.

Lemma same_object (this : ptr) (K : track_id) (w w1 : World) :
  objects w1 = objects w →
  ∀ o, objects w !! this = Some o →
       ∃ o1, objects w1 !! this = Some o1 ∧ m_target o1 = m_target o ∧
             m_midiTickPlayed o1 !! K = m_midiTickPlayed o !! K.
Proof. intros -> o H. by exists o. Qed.

Ltac fields :=
  apply preserved_by_fields;
  try (by apply same_object); try (by apply same_channels); try done.

Lemma preserved_refl (this : ptr) (t : Target) (K : track_id) (w : World) :
  preserved this t K w w.
Proof.
  fields.
Qed.

Lemma preserved_trans (this : ptr) (t : Target) (K : track_id) (w w1 w2 : World) :
  preserved this t K w w1 → preserved this t K w1 w2 → preserved this t K w w2.
Proof.
  intros (A1 & B1 & C1 & D1) (A2 & B2 & C2 & D2). repeat split.
  - apply A2, A1, H.
  - apply A2, A1, H.
  - congruence.
  - congruence.
  - intros c h Hc. destruct (D1 c h Hc) as [h1 H1].
    destruct (D2 c _ H1) as [h2 H2]. exists (h1 ++ h2). by rewrite app_assoc.
Qed.

Lemma preserved_calls (this : ptr) (t : Target) (K : track_id) (w : World) :
  preserved this t K w (set_calls (table_after this) w).
Proof.
  fields. apply dispatches_to_after.
Qed.

Lemma preserved_log (this : ptr) (t : Target) (K : track_id) (w : World) f :
  preserved this t K w (set_log f w).
Proof.
  fields.
Qed.

Lemma preserved_sent (this : ptr) (t : Target) (K : track_id) (w : World) (msg : Msg) :
  is_bind_request K msg = false →
  preserved this t K w (with_sent msg w).
Proof.
  intros Hmsg. fields.
  unfold with_sent. cbn. rewrite bind_requests_snoc, Hmsg. lia.
Qed.

Lemma preserved_object (this : ptr) (t : Target) (K : track_id) (w : World)
    (o o1 : RpcSequencer) :
  objects w !! this = Some o →
  m_target o1 = m_target o →
  m_midiTickPlayed o1 !! K = m_midiTickPlayed o !! K →
  preserved this t K w (set_objects <[this := o1]> w).
Proof.
  intros Hlive Ht Hreg. fields.
  - intros o' Ho'. exists o1. cbn. rewrite lookup_insert_eq.
    assert (o' = o) as -> by congruence. done.
  - congruence.
Qed.

Lemma preserved_new_channel (this : ptr) (t : Target) (K : track_id) (w : World) :
  preserved this t K w (set_channels (λ cs, cs ++ [[]]) w).
Proof.
  fields.
  intros c h Hc. exists []. cbn. rewrite app_nil_r. by apply lookup_app_l_Some.
Qed.

Lemma preserved_tick (this : ptr) (t : Target) (K : track_id) (w : World)
    (ch : chan) (tick : tick_t) :
  preserved this t K w (with_tick ch tick w).
Proof.
  fields.
  intros c h Hc. cbn. destruct (decide (ch = c)) as [->|Hne].
  - exists [tick]. by rewrite list_lookup_alter_eq, Hc.
  - exists []. by rewrite list_lookup_alter_ne, app_nil_r.
Qed.

Lemma preserved_channel_for (this : ptr) (t : Target) (K : track_id) (w : World)
    (o : RpcSequencer) (id : track_id) :
  objects w !! this = Some o →
  id ≠ K →
  preserved this t K w (with_channel_for this o id w).
Proof.
  intros Hlive Hne. unfold with_channel_for.
  eapply preserved_trans; [apply preserved_new_channel|].
  apply preserved_object with o; [exact Hlive | reflexivity |].
  cbn. by rewrite lookup_insert_ne.
Qed.

Lemma call_cases (c : Command) (w : World) (this : ptr) (o : RpcSequencer) :
  objects w !! this = Some o →
  call this c w = (Raised NotImplemented, w) ∨
  call this c w =
    (Ok tt, with_sent (mkMsg (m_target o) (operation_name c) (parameters c)) w).
Proof.
  intros Hlive.
  destruct (carries_handle c) eqn:Hc, (isSerialized w) eqn:Hm;
    [left; by apply call_refused with o | right; apply call_sends; auto ..].
Qed.

Lemma decodes_or_not (a : Args) :
  undecodable_tick a ∨ ∃ id tick rest, a = ATrackId id :: ATick tick :: rest.
Proof. destruct a as [|[] [|[] ?]]; cbn; eauto. Qed.

Lemma bind_request_other (K id : track_id) (t : Target) :
  id ≠ K → is_bind_request K (mkMsg t "bindMidiTickPlayed" [ATrackId id]) = false.
Proof.
  intros Hne. unfold is_bind_request. cbn.
  rewrite (bool_decide_eq_false_2 (id = K)) by done. apply andb_false_r.
Qed.

(** A step that does not create the channel of [K], because it exists or
    because the step does not reach [K], leaves what [preserved] lists; and
    if the step returns a channel for [K], it is the registered one. *)
Lemma step_frame (this : ptr) (t : Target) (K : track_id) (a : Action) (w : World) :
  own_proxy w this t →
  is_Some (registry w this K) ∨ touches t K a = None →
  preserved this t K w (step this a w).2 ∧
  (∀ c', (step this a w).1 = Ok (Channel K c') → registry w this K = Some c').
Proof.
  intros [[o [Hlive Ht]] Hown] Hcase.
  assert (registry w this K = m_midiTickPlayed o !! K) as Hreg
    by (unfold registry; by rewrite Hlive).
  destruct a as [c | id | msg]; unfold step.
  - destruct (call_cases c w this o Hlive) as [E | E]; unfold bind; rewrite E; cbn.
    + split; [apply preserved_refl | done].
    + split; [apply preserved_sent, operation_is_no_bind_request | done].
  - destruct (m_midiTickPlayed o !! id) as [ch|] eqn:Hid; unfold bind.
    + rewrite (midiTickPlayed_bound _ _ _ _ _ Hlive Hid). cbn.
      split; [apply preserved_refl|]. intros c' [= -> ->]. congruence.
    + assert (id ≠ K) as Hne.
      { intros ->. destruct Hcase as [[c Hc] | Hc].
        - rewrite Hreg, Hid in Hc. done.
        - cbn in Hc. by rewrite decide_True in Hc. }
      rewrite (midiTickPlayed_unbound _ _ _ _ Hlive Hid). cbn. split.
      * eapply preserved_trans;
          [apply preserved_sent, bind_request_other, Hne
          | by apply preserved_channel_for].
      * intros c' [= ? ?]. done.
  - destruct (decide (target msg = m_target o)) as [Heq | Hne]; unfold bind.
    + rewrite (listener_own _ _ _ _ Hlive Hown Heq). cbn zeta.
      rewrite lookup_built_table.
      set (w1 := set_calls (table_after this) w).
      assert (preserved this t K w w1) as P1 by apply preserved_calls.
      assert (objects w1 !! this = Some o) as Hlive1 by exact Hlive.
      repeat case_decide; unfold bind, invoke; cbn.
      * destruct (on_statusChanged_cases w1 this o (args msg) Hlive1)
          as [[i E] | [s E]]; rewrite E; cbn; (split; [|done]); [exact P1|].
        eapply preserved_trans; [exact P1 | by apply preserved_object with o].
      * destruct (on_positionChanged_cases w1 this o (args msg) Hlive1)
          as [[i E] | [s E]]; rewrite E; cbn; (split; [|done]); [exact P1|].
        eapply preserved_trans; [exact P1 | by apply preserved_object with o].
      * destruct (decodes_or_not (args msg)) as [Hbad | (id & tk & rest & Hargs)].
        { destruct (on_midiTickPlayed_undecodable w1 this _ Hbad) as [i E].
          rewrite E. cbn. by split. }
        rewrite Hargs.
        destruct (m_midiTickPlayed o !! id) as [ch|] eqn:Hid.
        { rewrite (on_midiTickPlayed_bound _ _ _ _ _ _ _ Hlive1 Hid). cbn.
          split; [|done].
          eapply preserved_trans; [exact P1 | apply preserved_tick]. }
        assert (id ≠ K) as Hne.
        { intros ->. destruct Hcase as [[c Hc] | Hc].
          - rewrite Hreg, Hid in Hc. done.
          - cbn in Hc. rewrite decide_True, Hargs, decide_True in Hc by (split; congruence || done).
            done. }
        rewrite (on_midiTickPlayed_unbound _ _ _ _ _ _ Hlive1 Hid). cbn.
        split; [|done].
        eapply preserved_trans; [exact P1|].
        eapply preserved_trans; [by apply preserved_channel_for | apply preserved_tick].
      * split; [|done].
        eapply preserved_trans; [exact P1 | apply preserved_log].
    + rewrite (listener_skips _ _ _ _ Hlive Hne). cbn.
      split; [apply preserved_refl | done].
Qed.

Lemma registry_live (w : World) (this : ptr) (o : RpcSequencer) (K : track_id) :
  objects w !! this = Some o → registry w this K = m_midiTickPlayed o !! K.
Proof. intros H. unfold registry. by rewrite H. Qed.

(** Once the channel of [K] is registered, a history keeps it: every
    access returns it and no bind request for [K] is sent. *)
Lemma run_bound (this : ptr) (t : Target) (K : track_id) (acts : list Action) :
  ∀ (w : World) (c : chan),
    own_proxy w this t →
    registry w this K = Some c →
    preserved this t K w (run this acts w).2 ∧
    (∀ c', Ok (Channel K c') ∈ (run this acts w).1 → c' = c).
Proof.
  induction acts as [|a acts IH]; intros w c Hown Hreg; cbn.
  - split; [apply preserved_refl|]. intros c' Hin. by apply elem_of_nil in Hin.
  - destruct (step_frame this t K a w Hown) as [P1 Hobs]; [left; by rewrite Hreg|].
    destruct (step this a w) as [r w1]. cbn in P1, Hobs.
    destruct (IH w1 c) as [P2 Hrest].
    { by apply P1. }
    { destruct P1 as (_ & -> & _). done. }
    destruct (run this acts w1) as [rs w2]. cbn in *.
    split; [by eapply preserved_trans|].
    intros c' [E | Hin]%elem_of_cons; [|by apply Hrest].
    symmetry in E. specialize (Hobs c' E). congruence.
Qed.

(** The listener creating the channel of a track on an early event. *)
Lemma event_creates_channel (w : World) (this : ptr) (o : RpcSequencer) (msg : Msg)
    (K : track_id) (tick : tick_t) (rest : Args) :
  objects w !! this = Some o →
  dispatches_to w this →
  target msg = m_target o →
  method msg = "midiTickPlayed" →
  args msg = ATrackId K :: ATick tick :: rest →
  m_midiTickPlayed o !! K = None →
  listener this msg w =
    (Ok (Invoked (mkCall this OnMidiTickPlayed)),
     with_tick (length (channels w)) tick
       (with_channel_for this o K (set_calls (table_after this) w))).
Proof.
  intros Hlive Hown Ht Hm Ha Hreg.
  rewrite (listener_own _ _ _ _ Hlive Hown Ht). cbn zeta.
  rewrite Hm, lookup_midiTickPlayed, Ha. unfold bind, invoke. cbn.
  assert (objects (set_calls (table_after this) w) !! this = Some o) as Hlive1
    by exact Hlive.
  by rewrite (on_midiTickPlayed_unbound _ _ _ _ _ _ Hlive1 Hreg).
Qed.








(** For a proxy whose handlers in the table are its own and a track
    [K] without a channel: the listener, on an inbound [midiTickPlayed(K,
    tick)], creates exactly one channel, registers it for [K] and sends
    [tick] through it; a local [midiTickPlayed(K)], right away or after any
    further history of the proxy, returns that channel, creates none, and
    the channel still starts with [tick]. *)
Theorem early_event_is_kept (w : World) (this : ptr) (o : RpcSequencer)
    (K : track_id) (tick : tick_t) (rest : Args) :
  objects w !! this = Some o →
  dispatches_to w this →
  m_midiTickPlayed o !! K = None →
  ∃ w1 : World,
    listener this (mkMsg (m_target o) "midiTickPlayed" (ATrackId K :: ATick tick :: rest)) w
      = (Ok (Invoked (mkCall this OnMidiTickPlayed)), w1) ∧
    length (channels w1) = S (length (channels w)) ∧
    registry w1 this K = Some (length (channels w)) ∧
    channels w1 !! length (channels w) = Some [tick] ∧
    midiTickPlayed this K w1 = (Ok (length (channels w)), w1) ∧
    ∀ acts : list Action,
      midiTickPlayed this K (run this acts w1).2
        = (Ok (length (channels w)), (run this acts w1).2) ∧
      ∃ later, channels (run this acts w1).2 !! length (channels w) = Some (tick :: later).
Proof.
  intros Hlive Hown Hreg. eexists.
  rewrite (event_creates_channel w this o _ K tick rest Hlive Hown) by done.
  set (n := length (channels w)). set (w1 := with_tick _ _ _).
  assert (registry w1 this K = Some n) as Hreg1.
  { unfold registry. cbn. rewrite lookup_insert_eq. cbn. apply lookup_insert_eq. }
  assert (channels w1 !! n = Some [tick]) as Hch1.
  { cbn. rewrite list_lookup_alter_eq. subst n. by rewrite list_lookup_middle. }
  assert (own_proxy w1 this (m_target o)) as Hown1.
  { split; [|by apply dispatches_to_after].
    eexists. cbn. rewrite lookup_insert_eq. done. }
  assert (∀ w2, own_proxy w2 this (m_target o) → registry w2 this K = Some n →
                midiTickPlayed this K w2 = (Ok n, w2)) as Hget.
  { intros w2 [[o2 [Hlive2 _]] _] Hreg2.
    rewrite (registry_live _ _ _ _ Hlive2) in Hreg2.
    by apply midiTickPlayed_bound with o2. }
  split; [reflexivity|]. split.
  { cbn. rewrite length_alter, length_app. cbn. lia. }
  split; [exact Hreg1|]. split; [exact Hch1|]. split; [by apply Hget|].
  intros acts.
  destruct (run_bound this (m_target o) K acts w1 n Hown1 Hreg1)
    as [(Hown2 & Hreg2 & _ & Hch2) _].
  split.
  - apply Hget; [by apply Hown2 | exact (eq_trans Hreg2 Hreg1)].
  - destruct (Hch2 n [tick] Hch1) as [later Hl]. by exists later.
Qed.

Lemma early_event_is_kept_witness :
  let w := (do! RpcSequencer_ctor 1%N members0 in setup 1%N) (boot false) in
  ∃ w1 : World,
    listener 1%N (mkMsg (mkTarget Sequencer) "midiTickPlayed" [ATrackId 7%N; ATick 3%N]) w.2
      = (Ok (Invoked (mkCall 1%N OnMidiTickPlayed)), w1) ∧
    length (channels w1) = 1 ∧
    registry w1 1%N 7%N = Some 0 ∧
    channels w1 !! 0 = Some [3%N] ∧
    midiTickPlayed 1%N 7%N w1 = (Ok 0, w1) ∧
    ∀ acts : list Action,
      midiTickPlayed 1%N 7%N (run 1%N acts w1).2 = (Ok 0, (run 1%N acts w1).2) ∧
      ∃ later, channels (run 1%N acts w1).2 !! 0 = Some (3%N :: later).
Proof.
  intros w.
  refine (early_event_is_kept w.2 1%N
            (set_m_listenID 0%N (set_m_target (mkTarget Sequencer) members0))
            7%N 3%N [] _ _ _).
  - vm_compute. reflexivity.
  - left. vm_compute. reflexivity.
  - vm_compute. reflexivity.
Defined.

(** ** The static table of handlers *)

Lemma update_rpc (p : ptr) (f : RpcSequencer → RpcSequencer) (w : World) :
  listeners (update p f w).2 = listeners w ∧ calls (update p f w).2 = calls w.
Proof.
  unfold update, bind, deref, modify. by destruct (objects w !! p).
Qed.

Lemma invoke_rpc (c : Call) (a : Args) (w : World) :
  listeners (invoke c a w).2 = listeners w ∧ calls (invoke c a w).2 = calls w.
Proof.
  destruct c as [q code]. unfold invoke. cbn [call_code call_this].
  destruct code.
  - unfold on_statusChanged, arg_Status, update, bind, deref, modify, ret, raise.
    repeat (case_match; simplify_eq/=); done.
  - unfold on_positionChanged, arg_float, update, bind, deref, modify, ret, raise.
    repeat (case_match; simplify_eq/=); done.
  - unfold on_midiTickPlayed, arg_track_id, arg_tick_t, m_midiTickPlayed_at,
      channel_send, new_channel, update, bind, deref, modify, gets, ret, raise.
    repeat (case_match; simplify_eq/=); done.
Qed.

(** One run of the listener never registers or removes a listener, and it
    either leaves the static table as it is or, finding it empty, fills it
    with closures over its own [this]. *)
Lemma listener_rpc (p : ptr) (msg : Msg) (w : World) :
  listeners (listener p msg w).2 = listeners w ∧
  (calls (listener p msg w).2 = calls w ∨
   calls w = ∅ ∧ calls (listener p msg w).2 = bind_from_real_sequencer p ∅).
Proof.
  destruct (objects w !! p) as [o|] eqn:Hlive.
  - destruct (decide (target msg = m_target o)) as [Heq | Hne].
    + rewrite (listener_addressed _ _ _ _ Hlive Heq). cbn zeta.
      set (w1 := set_calls (table_after p) w).
      assert (calls w1 = calls w ∨
              calls w = ∅ ∧ calls w1 = bind_from_real_sequencer p ∅) as Hw1.
      { cbn. unfold table_after. case_bool_decide as He; [right | by left].
        by rewrite He. }
      destruct (table_after p (calls w) !! method msg) as [c|]; [|by split].
      unfold bind. destruct (invoke_rpc c (args msg) w1) as [L C].
      destruct (invoke c (args msg) w1) as [[] w2]; cbn in *; by rewrite L, C.
    + by rewrite (listener_skips _ _ _ _ Hlive Hne); split; [|left].
  - unfold listener, bind, deref. rewrite Hlive. by split; [|left].
Qed.

(** The table is built once: a listener that finds it filled leaves it. *)
Lemma table_never_rebuilt (p : ptr) (msg : Msg) (w : World) :
  calls w ≠ ∅ → calls (listener p msg w).2 = calls w.
Proof. intros Hne. by destruct (listener_rpc p msg w) as [_ [? | [? _]]]. Qed.

(** It is built on first use, by the proxy whose listener gets there. *)
Lemma table_built_on_first_use (p : ptr) (o : RpcSequencer) (msg : Msg) (w : World) :
  objects w !! p = Some o →
  target msg = m_target o →
  calls w = ∅ →
  calls (listener p msg w).2 = bind_from_real_sequencer p ∅.
Proof.
  intros Hlive Heq He.
  rewrite (listener_addressed _ _ _ _ Hlive Heq). cbn zeta.
  set (w1 := set_calls (table_after p) w).
  assert (calls w1 = bind_from_real_sequencer p ∅) as Hw1.
  { cbn. unfold table_after. by rewrite He, bool_decide_eq_true_2. }
  destruct (table_after p (calls w) !! method msg) as [c|]; [|done].
  unfold bind. destruct (invoke_rpc c (args msg) w1) as [_ C].
  destruct (invoke c (args msg) w1) as [[] w2]; cbn in *; congruence.
Qed.

(** Once proxy [p] has built the table, the listener of another proxy [q]
    runs the closures of [p]: a [statusChanged] received by [q] lands in the
    members of [p] and leaves [q] as it was. *)
Lemma foreign_listener_updates_builder (w : World) (p q : ptr)
    (op oq : RpcSequencer) (s : Status) (rest : Args) :
  objects w !! p = Some op →
  objects w !! q = Some oq →
  calls w = bind_from_real_sequencer p ∅ →
  listener q (mkMsg (m_target oq) "statusChanged" (AStatus s :: rest)) w =
    (Ok (Invoked (mkCall p OnStatusChanged)),
     set_objects <[p := push_m_statusChanged s (set_m_status s op)]> w).
Proof.
  intros Hp Hq Hcalls.
  rewrite (listener_addressed w q oq (mkMsg (m_target oq) _ _) Hq eq_refl). cbn.
  assert (table_after q (calls w) = calls w) as Ht.
  { unfold table_after. rewrite bool_decide_eq_false_2; [done|].
    rewrite Hcalls. apply built_table_nonempty. }
  rewrite Ht, Hcalls, lookup_statusChanged.
  unfold bind, invoke. cbn.
  assert (set_calls (table_after q) w = w) as ->.
  { destruct w. unfold set_calls. cbn in *. by rewrite Ht. }
  by rewrite (on_statusChanged_live _ _ _ _ _ Hp).
Qed.

(** C6.  Two proxies, at addresses 1 and 2, set up in one process; the
    engine reports [statusChanged(Playing)] and the rpc channel hands it to
    both listeners.  The listener of proxy 1 builds the table; the listener
    of proxy 2 finds it built and runs the closure of proxy 1: proxy 1 is
    updated twice, proxy 2 not at all. *)
Theorem shared_table_serves_first_proxy :
  let w := (do! RpcSequencer_ctor 1%N members0 in
            do! RpcSequencer_ctor 2%N members0 in
            do! setup 1%N in setup 2%N) (boot false) in
  let r := deliver (mkMsg (mkTarget Sequencer) "statusChanged" [AStatus Playing]) w.2 in
  r.1 = [(0%N, 1%N, Ok (Invoked (mkCall 1%N OnStatusChanged)));
         (1%N, 2%N, Ok (Invoked (mkCall 1%N OnStatusChanged)))] ∧
  status 1%N r.2 = (Ok Playing, r.2) ∧
  statusChanged 1%N r.2 = (Ok [Playing; Playing], r.2) ∧
  status 2%N r.2 = (Ok Stopped, r.2) ∧
  statusChanged 2%N r.2 = (Ok [], r.2).
Proof. vm_compute. repeat split. Qed.

(** ** Teardown *)

Lemma setup_live (w : World) (this : ptr) (o : RpcSequencer) :
  objects w !! this = Some o →
  setup this w =
    (Ok tt,
     set_objects <[this := set_m_listenID (next_listenID w) o]>
       (set_next_listenID (N.succ (next_listenID w))
          (set_listeners (λ ls, ls ++ [(next_listenID w, this)]) w))).
Proof.
  intros Hlive. unfold setup, listen, bind, gets, modify, ret. cbn.
  set (w1 := set_next_listenID _ _).
  assert (objects w1 !! this = Some o) as Hlive1 by exact Hlive.
  by rewrite (update_live _ _ _ _ Hlive1).
Qed.

(** After [setup] on a proxy that was not listening, the one listener of
    the proxy is registered under the id kept in [m_listenID]. *)
Lemma setup_registers (w : World) (this : ptr) (o : RpcSequencer) :
  objects w !! this = Some o →
  filter (λ l, l.2 = this) (listeners w) = [] →
  ∃ o1, objects (setup this w).2 !! this = Some o1 ∧
        filter (λ l, l.2 = this) (listeners (setup this w).2) = [(m_listenID o1, this)].
Proof.
  intros Hlive Hnone. rewrite (setup_live _ _ _ Hlive). cbn.
  eexists. split; [apply lookup_insert_eq|].
  by rewrite filter_app, Hnone, filter_cons_True.
Qed.

Lemma dtor_live (w : World) (this : ptr) (o : RpcSequencer) :
  objects w !! this = Some o →
  RpcSequencer_dtor this w =
    (Ok tt, set_objects (delete this)
              (set_listeners (filter (λ l, l.1 ≠ m_listenID o)) w)).
Proof.
  intros Hlive. unfold RpcSequencer_dtor.
  by rewrite (bind_deref _ _ _ _ Hlive).
Qed.

Lemma deliver_to_spec (ls : list (ListenID * ptr)) (msg : Msg) :
  ∀ w, (deliver_to ls msg w).1.*1 = ls ∧
       listeners (deliver_to ls msg w).2 = listeners w.
Proof.
  induction ls as [|[id p] ls IH]; intros w; cbn; [done|].
  destruct (listener_rpc p msg w) as [L _].
  destruct (listener p msg w) as [r w1]. cbn in L.
  destruct (IH w1) as [E L1].
  destruct (deliver_to ls msg w1) as [rs w2]. cbn in *.
  split; congruence.
Qed.

(** Only registered listeners run, whatever is delivered. *)
Lemma deliver_all_spec (msgs : list Msg) :
  ∀ w e, e ∈ (deliver_all msgs w).1 → e.1 ∈ listeners w.
Proof.
  induction msgs as [|msg msgs IH]; intros w e; cbn.
  - intros H. by apply elem_of_nil in H.
  - unfold deliver. destruct (deliver_to_spec (listeners w) msg w) as [E L].
    destruct (deliver_to (listeners w) msg w) as [rs w1]. cbn in *.
    specialize (IH w1). destruct (deliver_all msgs w1) as [rss w2]. cbn in *.
    intros [Hin | Hin]%elem_of_app.
    + rewrite <- E. apply list_elem_of_fmap. by exists e.
    + rewrite <- L. by apply IH.
Qed.

Lemma deliver_all_unheard (msgs : list Msg) (w : World) :
  listeners w = [] → deliver_all msgs w = ([], w).
Proof.
  intros Hnone. induction msgs as [|msg msgs IH]; cbn; [done|].
  unfold deliver. rewrite Hnone. cbn. by rewrite IH.
Qed.

Lemma listener_invoked (p : ptr) (msg : Msg) (w : World) (c : Call) :
  (listener p msg w).1 = Ok (Invoked c) →
  table_after p (calls w) !! method msg = Some c.
Proof.
  destruct (objects w !! p) as [o|] eqn:Hlive.
  - destruct (decide (target msg = m_target o)) as [Heq | Hne].
    + rewrite (listener_addressed _ _ _ _ Hlive Heq). cbn zeta.
      destruct (table_after p (calls w) !! method msg) as [c0|]; [|done].
      unfold bind. destruct (invoke c0 (args msg) _) as [[] w2]; cbn; congruence.
    + by rewrite (listener_skips _ _ _ _ Hlive Hne).
  - unfold listener, bind, deref. by rewrite Hlive.
Qed.

Lemma built_table_closures (p : ptr) (m : Method) (c : Call) :
  bind_from_real_sequencer p ∅ !! m = Some c → call_this c = p.
Proof.
  rewrite lookup_built_table. repeat case_decide; intros [= <-]; done.
Qed.

(** A listener of another proxy neither brings closures of [this] into the
    table nor runs one, if the table had none. *)
Lemma listener_no_closure (p this : ptr) (msg : Msg) (w : World) :
  p ≠ this →
  no_closure_of this w →
  no_closure_of this (listener p msg w).2 ∧
  (∀ c, (listener p msg w).1 = Ok (Invoked c) → call_this c ≠ this).
Proof.
  intros Hp Hw. split.
  - destruct (listener_rpc p msg w) as [_ [E | [_ E]]]; intros m c; rewrite E.
    + apply Hw.
    + intros H%built_table_closures. congruence.
  - intros c H%listener_invoked. revert H. unfold table_after.
    case_bool_decide as He; [rewrite He | apply Hw].
    intros H%built_table_closures. congruence.
Qed.

Lemma deliver_to_no_closure (this : ptr) (msg : Msg) (ls : list (ListenID * ptr)) :
  (∀ l, l ∈ ls → l.2 ≠ this) →
  ∀ w, no_closure_of this w →
       no_closure_of this (deliver_to ls msg w).2 ∧
       (∀ e c, e ∈ (deliver_to ls msg w).1 → e.2 = Ok (Invoked c) → call_this c ≠ this).
Proof.
  induction ls as [|[id p] ls IH]; intros Hls w Hw; cbn.
  - split; [done|]. intros e c H. by apply elem_of_nil in H.
  - assert (p ≠ this) as Hp by (apply (Hls (id, p)); left).
    destruct (listener_no_closure p this msg w Hp Hw) as [Hw1 Hr].
    destruct (listener p msg w) as [r w1]. cbn in Hw1, Hr.
    destruct (IH (λ l Hl, Hls l (list_elem_of_further _ _ _ Hl)) w1 Hw1) as [Hw2 Hrs].
    destruct (deliver_to ls msg w1) as [rs w2]. cbn in *.
    split; [done|]. intros e c [-> | Hin]%elem_of_cons; [apply Hr | by apply Hrs].
Qed.

Lemma deliver_all_no_closure (this : ptr) (msgs : list Msg) :
  ∀ w, (∀ l, l ∈ listeners w → l.2 ≠ this) →
       no_closure_of this w →
       ∀ e c, e ∈ (deliver_all msgs w).1 → e.2 = Ok (Invoked c) → call_this c ≠ this.
Proof.
  induction msgs as [|msg msgs IH]; intros w Hls Hw e c; cbn.
  - intros H. by apply elem_of_nil in H.
  - unfold deliver.
    destruct (deliver_to_no_closure this msg (listeners w) Hls w Hw) as [Hw1 Hrs].
    destruct (deliver_to_spec (listeners w) msg w) as [_ L].
    destruct (deliver_to (listeners w) msg w) as [rs w1]. cbn in *.
    assert (∀ l, l ∈ listeners w1 → l.2 ≠ this) as Hls1 by (by rewrite L).
    specialize (IH w1 Hls1 Hw1 e c).
    destruct (deliver_all msgs w1) as [rss w2]. cbn in *.
    intros [Hin | Hin]%elem_of_app; [by apply Hrs | by apply IH].
Qed.

(** For a proxy that was set up (its one listener is registered under
    [m_listenID]): the destructor returns, the registration under that id
    is revoked, and whatever messages the rpc channel delivers afterwards,
    none is handed to a listener of the destroyed proxy; no closure of the
    destroyed proxy is invoked either, unless the static table held its
    closures; and if it was the only listener, nothing runs at all. *)
Theorem teardown_revokes_listener (w : World) (this : ptr) (o : RpcSequencer) :
  objects w !! this = Some o →
  filter (λ l, l.2 = this) (listeners w) = [(m_listenID o, this)] →
  ∃ w' : World,
    RpcSequencer_dtor this w = (Ok tt, w') ∧
    objects w' !! this = None ∧
    listeners w' = filter (λ l, l.1 ≠ m_listenID o) (listeners w) ∧
    (∀ msgs e, e ∈ (deliver_all msgs w').1 →
               e.1.1 ≠ m_listenID o ∧ e.1.2 ≠ this) ∧
    (no_closure_of this w →
     ∀ msgs e c, e ∈ (deliver_all msgs w').1 → e.2 = Ok (Invoked c) →
                 call_this c ≠ this) ∧
    (listeners w = [(m_listenID o, this)] → ∀ msgs, deliver_all msgs w' = ([], w')).
Proof.
  intros Hlive Hreg. eexists. rewrite (dtor_live _ _ _ Hlive).
  set (w' := set_objects _ _).
  assert (∀ l, l ∈ listeners w' → l.1 ≠ m_listenID o ∧ l.2 ≠ this) as Hls.
  { intros l Hin. cbn in Hin.
    apply list_elem_of_filter in Hin as [Hid Hin]. split; [exact Hid|].
    intros Hthis.
    assert (l ∈ filter (λ l, l.2 = this) (listeners w)) as Hf
      by (by apply list_elem_of_filter).
    rewrite Hreg in Hf. apply list_elem_of_singleton in Hf.
    rewrite Hf in Hid. done. }
  split; [reflexivity|]. split; [apply lookup_delete_eq|]. split; [reflexivity|].
  split; [|split].
  - intros msgs e Hin. apply deliver_all_spec in Hin. by apply Hls.
  - intros Hw msgs. apply deliver_all_no_closure; [|exact Hw].
    intros l Hl. by apply Hls.
  - intros Honly msgs. apply deliver_all_unheard. cbn.
    rewrite Honly, filter_cons_False, filter_nil; [done|]. cbn. by intros H.
Qed.

Lemma teardown_revokes_listener_witness :
  let w := (do! RpcSequencer_ctor 1%N members0 in
            do! RpcSequencer_ctor 2%N members0 in
            do! setup 1%N in setup 2%N) (boot false) in
  ∃ w' : World,
    RpcSequencer_dtor 2%N w.2 = (Ok tt, w') ∧
    objects w' !! 2%N = None ∧
    listeners w' = filter (λ l, l.1 ≠ 1%N) (listeners w.2) ∧
    (∀ msgs e, e ∈ (deliver_all msgs w').1 → e.1.1 ≠ 1%N ∧ e.1.2 ≠ 2%N) ∧
    (no_closure_of 2%N w.2 →
     ∀ msgs e c, e ∈ (deliver_all msgs w').1 → e.2 = Ok (Invoked c) →
                 call_this c ≠ 2%N) ∧
    (listeners w.2 = [(1%N, 2%N)] → ∀ msgs, deliver_all msgs w' = ([], w')).
Proof.
  intros w.
  refine (teardown_revokes_listener w.2 2%N
            (set_m_listenID 1%N (set_m_target (mkTarget Sequencer) members0)) _ _).
  - vm_compute. reflexivity.
  - vm_compute. reflexivity.
Defined.

(** The closures of a proxy that built the table outlive it: with proxy 1
    destroyed, the listener of proxy 2 still reaches for its members. *)
Lemma closures_outlive_their_proxy :
  let w := (do! RpcSequencer_ctor 1%N members0 in
            do! RpcSequencer_ctor 2%N members0 in
            do! setup 1%N in do! setup 2%N in
            do! listener 1%N (mkMsg (mkTarget Sequencer) "positionChanged"
                                    [AFloat (S754_zero false)]) in
            RpcSequencer_dtor 1%N) (boot false) in
  (deliver (mkMsg (mkTarget Sequencer) "statusChanged" [AStatus Playing]) w.2).1
    = [(1%N, 2%N, Raised (DeadObject 1%N))].
Proof. vm_compute. reflexivity. Qed.

(** ** A process with one proxy *)

Lemma untouched_key (t : Target) (a : Action) : ∃ K, touches t K a = None.
Proof.
  destruct a as [c | id | msg].
  - by exists 0%N.
  - exists (N.succ id). cbn. rewrite decide_False; [done | lia].
  - destruct (args msg) as [|[] rest] eqn:Ha;
      try (exists 0%N; cbn; rewrite Ha; by case_decide).
    exists (N.succ id). cbn. rewrite Ha. case_decide; [|done].
    destruct rest as [|[] ?]; try done. rewrite decide_False; [done | lia].
Qed.

Lemma step_own (this : ptr) (t : Target) (a : Action) (w : World) :
  own_proxy w this t → own_proxy (step this a w).2 this t.
Proof.
  intros Hown. destruct (untouched_key t a) as [K HK].
  destruct (step_frame this t K a w Hown) as [(P & _) _]; [by right|].
  by apply P.
Qed.

(** [own_proxy] holds through every history of the proxy. *)
Lemma run_own (this : ptr) (t : Target) (acts : list Action) :
  ∀ w, own_proxy w this t → own_proxy (run this acts w).2 this t.
Proof.
  induction acts as [|a acts IH]; intros w Hown; cbn; [done|].
  pose proof (step_own this t a w Hown) as H1.
  destruct (step this a w) as [r w1]. cbn in H1.
  specialize (IH w1 H1). by destruct (run this acts w1).
Qed.

(** It holds when the first proxy of a process has been set up. *)
Lemma first_proxy_own (this : ptr) (members : RpcSequencer) (serialized : bool) :
  own_proxy ((do! RpcSequencer_ctor this members in setup this) (boot serialized)).2
            this (mkTarget Sequencer).
Proof.
  unfold bind, RpcSequencer_ctor, modify.
  set (w := set_objects _ _).
  assert (objects w !! this = Some (set_m_target (mkTarget Sequencer) members))
    as Hlive by (cbn; apply lookup_insert_eq).
  rewrite (setup_live _ _ _ Hlive). split; [|by left].
  eexists. cbn. rewrite lookup_insert_eq. done.
Qed.

(** ** Inbound traffic stays inbound *)

Lemma invoke_quiet (c : Call) (a : Args) (w : World) :
  sent (invoke c a w).2 = sent w ∧
  isSerialized (invoke c a w).2 = isSerialized w ∧
  next_listenID (invoke c a w).2 = next_listenID w.
Proof.
  destruct c as [q code]. unfold invoke. cbn [call_code call_this].
  destruct code.
  - unfold on_statusChanged, arg_Status, update, bind, deref, modify, ret, raise.
    repeat (case_match; simplify_eq/=); done.
  - unfold on_positionChanged, arg_float, update, bind, deref, modify, ret, raise.
    repeat (case_match; simplify_eq/=); done.
  - unfold on_midiTickPlayed, arg_track_id, arg_tick_t, m_midiTickPlayed_at,
      channel_send, new_channel, update, bind, deref, modify, gets, ret, raise.
    repeat (case_match; simplify_eq/=); done.
Qed.

Lemma listener_quiet (p : ptr) (msg : Msg) (w : World) :
  sent (listener p msg w).2 = sent w ∧
  isSerialized (listener p msg w).2 = isSerialized w ∧
  next_listenID (listener p msg w).2 = next_listenID w.
Proof.
  destruct (objects w !! p) as [o|] eqn:Hlive.
  - destruct (decide (target msg = m_target o)) as [Heq | Hne].
    + rewrite (listener_addressed _ _ _ _ Hlive Heq). cbn zeta.
      destruct (table_after p (calls w) !! method msg) as [c|]; [|done].
      unfold bind.
      destruct (invoke_quiet c (args msg) (set_calls (table_after p) w)) as (S & I & N).
      destruct (invoke c (args msg) _) as [[] w2]; cbn in *; by rewrite S, I, N.
    + by rewrite (listener_skips _ _ _ _ Hlive Hne).
  - unfold listener, bind, deref. by rewrite Hlive.
Qed.

Lemma deliver_to_quiet (ls : list (ListenID * ptr)) (msg : Msg) :
  ∀ w, sent (deliver_to ls msg w).2 = sent w ∧
       isSerialized (deliver_to ls msg w).2 = isSerialized w ∧
       next_listenID (deliver_to ls msg w).2 = next_listenID w.
Proof.
  induction ls as [|[id p] ls IH]; intros w; cbn; [done|].
  destruct (listener_quiet p msg w) as (S & I & N).
  destruct (listener p msg w) as [r w1]. cbn in S, I, N.
  destruct (IH w1) as (S1 & I1 & N1).
  destruct (deliver_to ls msg w1) as [rs w2]. cbn in *.
  repeat split; congruence.
Qed.

(** X1.  Whatever messages the rpc channel delivers, to however many
    listeners and with whatever outcome, nothing is handed to [send], no
    listener is registered or removed, and the transport mode stays. *)
Theorem delivery_never_sends (msgs : list Msg) (w : World) :
  sent (deliver_all msgs w).2 = sent w ∧
  listeners (deliver_all msgs w).2 = listeners w ∧
  next_listenID (deliver_all msgs w).2 = next_listenID w ∧
  isSerialized (deliver_all msgs w).2 = isSerialized w.
Proof.
  revert w. induction msgs as [|msg msgs IH]; intros w; cbn; [done|].
  unfold deliver.
  destruct (deliver_to_quiet (listeners w) msg w) as (S & I & N).
  destruct (deliver_to_spec (listeners w) msg w) as [_ L].
  destruct (deliver_to (listeners w) msg w) as [rs w1]. cbn in *.
  destruct (IH w1) as (S1 & L1 & N1 & I1).
  destruct (deliver_all msgs w1) as [rss w2]. cbn in *.
  repeat split; congruence.
Qed.

(** ** The table through deliveries *)

Lemma deliver_to_table (ls : list (ListenID * ptr)) (msg : Msg) :
  ∀ w, (calls w ≠ ∅ → calls (deliver_to ls msg w).2 = calls w) ∧
       (calls w = ∅ →
        calls (deliver_to ls msg w).2 = ∅ ∨
        ∃ l, l ∈ ls ∧ calls (deliver_to ls msg w).2 = bind_from_real_sequencer l.2 ∅).
Proof.
  induction ls as [|[id p] ls IH]; intros w; cbn; [by split; [|left]|].
  destruct (listener_rpc p msg w) as [_ Hc].
  destruct (listener p msg w) as [r w1]. cbn in Hc.
  destruct (IH w1) as [Hkeep Hbuild].
  destruct (deliver_to ls msg w1) as [rs w2]. cbn in *.
  split.
  - intros Hne. destruct Hc as [E | [E _]]; [|done].
    rewrite <- E. apply Hkeep. by rewrite E.
  - intros He. destruct Hc as [E | [_ E]].
    + destruct Hbuild as [E2 | (l & Hl & E2)]; [congruence | by left |].
      right. exists l. split; [by right | done].
    + right. exists (id, p). split; [by left|]. cbn.
      rewrite <- E. apply Hkeep. rewrite E. apply built_table_nonempty.
Qed.

(** X2.  Through any deliveries the static table is filled at most once: a
    table that holds entries is never changed again, and an empty one stays
    empty or becomes the three closures over the [this] of one of the
    registered listeners. *)
Theorem table_filled_at_most_once (msgs : list Msg) (w : World) :
  (calls w ≠ ∅ → calls (deliver_all msgs w).2 = calls w) ∧
  (calls w = ∅ →
   calls (deliver_all msgs w).2 = ∅ ∨
   ∃ l, l ∈ listeners w ∧
        calls (deliver_all msgs w).2 = bind_from_real_sequencer l.2 ∅).
Proof.
  revert w. induction msgs as [|msg msgs IH]; intros w; cbn; [by split; [|left]|].
  unfold deliver.
  destruct (deliver_to_table (listeners w) msg w) as [Hkeep Hbuild].
  destruct (deliver_to_spec (listeners w) msg w) as [_ L].
  destruct (deliver_to (listeners w) msg w) as [rs w1]. cbn in *.
  destruct (IH w1) as [Hkeep1 Hbuild1]. rewrite L in Hbuild1.
  destruct (deliver_all msgs w1) as [rss w2]. cbn in *.
  split.
  - intros Hne. rewrite <- (Hkeep Hne). apply Hkeep1. by rewrite (Hkeep Hne).
  - intros He. destruct (Hbuild He) as [E | (l & Hl & E)].
    + by apply Hbuild1.
    + right. exists l. split; [done|]. rewrite <- E. apply Hkeep1.
      rewrite E. apply built_table_nonempty.
Qed.

Lemma table_filled_at_most_once_witness :
  let w := (do! RpcSequencer_ctor 1%N members0 in
            do! RpcSequencer_ctor 2%N members0 in
            do! setup 1%N in setup 2%N) (boot false) in
  let msgs := [mkMsg (mkTarget Sequencer) "positionChanged" [AFloat (S754_zero true)];
               mkMsg (mkTarget Sequencer) "statusChanged" [AStatus Paused]] in
  calls (deliver_all msgs w.2).2 = ∅ ∨
  ∃ l, l ∈ listeners w.2 ∧
       calls (deliver_all msgs w.2).2 = bind_from_real_sequencer l.2 ∅.
Proof.
  intros w msgs.
  refine (proj2 (table_filled_at_most_once msgs w.2) _).
  vm_compute. reflexivity.
Defined.

(** X3.  With the table empty or built, a message for the proxy's own
    target ends as not found exactly when its method is none of
    [statusChanged], [positionChanged] and [midiTickPlayed]. *)
Theorem not_found_iff_unbound_method (w : World) (this : ptr) (o : RpcSequencer)
    (msg : Msg) :
  objects w !! this = Some o →
  target msg = m_target o →
  calls w = ∅ ∨ (∃ q, calls w = bind_from_real_sequencer q ∅) →
  (listener this msg w).1 = Ok NotFound ↔
  method msg ≠ "statusChanged" ∧ method msg ≠ "positionChanged" ∧
  method msg ≠ "midiTickPlayed".
Proof.
  intros Hlive Heq Htable.
  assert (∃ q, table_after this (calls w) = bind_from_real_sequencer q ∅) as [q Hq].
  { unfold table_after. destruct Htable as [-> | [q ->]].
    - exists this. by rewrite bool_decide_eq_true_2.
    - exists q. by rewrite bool_decide_eq_false_2 by apply built_table_nonempty. }
  rewrite (listener_addressed _ _ _ _ Hlive Heq). cbn zeta.
  rewrite Hq, lookup_built_table.
  repeat case_decide;
    try (split; [|by intros (? & ? & ?)]; unfold bind;
         destruct (invoke _ _ _) as [[] ?]; done).
  done.
Qed.

Lemma not_found_iff_unbound_method_witness :
  let w := (do! RpcSequencer_ctor 1%N members0 in setup 1%N) (boot false) in
  let msg := mkMsg (mkTarget Sequencer) "bindMidiTickPlayed" [ATrackId 7%N] in
  (listener 1%N msg w.2).1 = Ok NotFound ↔
  method msg ≠ "statusChanged" ∧ method msg ≠ "positionChanged" ∧
  method msg ≠ "midiTickPlayed".
Proof.
  intros w msg.
  refine (not_found_iff_unbound_method w.2 1%N
            (set_m_listenID 0%N (set_m_target (mkTarget Sequencer) members0)) msg _ _ _).
  - vm_compute. reflexivity.
  - reflexivity.
  - left. vm_compute. reflexivity.
Defined.

(** ** Mutating calls *)

(** X4.  A mutating call on a live proxy, in either transport mode, touches
    nothing but the sent messages, and adds at most one: no proxy object
    (so no cached status, position or registry), no channel, no listener,
    not the static table. *)
Theorem call_only_sends (c : Command) (this : ptr) (w : World) (o : RpcSequencer) :
  objects w !! this = Some o →
  objects (call this c w).2 = objects w ∧
  calls (call this c w).2 = calls w ∧
  channels (call this c w).2 = channels w ∧
  listeners (call this c w).2 = listeners w ∧
  (sent (call this c w).2 = sent w ∨ ∃ msg, sent (call this c w).2 = sent w ++ [msg]).
Proof.
  intros Hlive.
  destruct (call_cases c w this o Hlive) as [-> | ->]; cbn;
    repeat split; eauto.
Qed.

Lemma call_only_sends_witness :
  let w := (do! RpcSequencer_ctor 1%N members0 in setup 1%N) (boot true) in
  objects (call 1%N (SetAudioTrack 7%N 9%N) w.2).2 = objects w.2.
Proof.
  intros w.
  refine (proj1 (call_only_sends (SetAudioTrack 7%N 9%N) 1%N w.2
            (set_m_listenID 0%N (set_m_target (mkTarget Sequencer) members0)) _)).
  vm_compute. reflexivity.
Defined.

Lemma run_calls (this : ptr) (o : RpcSequencer) (cs : list Command) :
  ∀ w, objects w !! this = Some o →
       sent (run this (Local <$> cs) w).2 =
         sent w ++ (command_message (m_target o)
                      <$> List.filter (passes_guard (isSerialized w)) cs).
Proof.
  induction cs as [|c cs IH]; intros w Hlive; cbn [fmap list_fmap run List.filter].
  - by rewrite app_nil_r.
  - unfold step, bind, passes_guard at 1.
    destruct (carries_handle c) eqn:Hc, (isSerialized w) eqn:Hm; cbn [andb negb];
      try (rewrite (call_sends c w this o Hlive) by auto; cbn [ret];
           specialize (IH (with_sent (command_message (m_target o) c) w) Hlive);
           unfold command_message in *;
           destruct (run this (Local <$> cs) _) as [rs w2]; cbn in *;
           rewrite IH, Hm, <- app_assoc; reflexivity).
    rewrite (call_refused c w this o Hlive Hc Hm).
    specialize (IH w Hlive).
    destruct (run this (Local <$> cs) w) as [rs w2]. cbn in *. by rewrite IH, Hm.
Qed.

(** X5.  A sequence of mutating calls on a live proxy hands its messages to
    [send] in the order of the calls, one per call, each addressed to the
    proxy's target; the calls that carry a stream handle are left out when
    the transport is serialized. *)
Theorem calls_sent_in_order (this : ptr) (o : RpcSequencer) (cs : list Command)
    (w : World) :
  objects w !! this = Some o →
  sent (run this (Local <$> cs) w).2 =
    sent w ++ (command_message (m_target o)
                 <$> List.filter (passes_guard (isSerialized w)) cs).
Proof. apply run_calls. Qed.

Lemma calls_sent_in_order_witness :
  let w := (do! RpcSequencer_ctor 1%N members0 in setup 1%N) (boot true) in
  sent (run 1%N (Local <$> [Seek 5%N; SetMIDITrack 7%N 9%N; Play]) w.2).2 =
    [mkMsg (mkTarget Sequencer) "seek" [AUInt64 5%N];
     mkMsg (mkTarget Sequencer) "play" []].
Proof.
  intros w.
  refine (calls_sent_in_order 1%N
            (set_m_listenID 0%N (set_m_target (mkTarget Sequencer) members0))
            [Seek 5%N; SetMIDITrack 7%N 9%N; Play] w.2 _).
  vm_compute. reflexivity.
Defined.

(** ** The effect of one action *)

(** One action of a live proxy whose handlers are its own, as a function
    of the action: the members of the proxy and the channels afterwards.
    No other object changes. *)
Lemma step_effect (this : ptr) (a : Action) (w : World) (o : RpcSequencer) :
  objects w !! this = Some o →
  dispatches_to w this →
  objects (step this a w).2 =
    <[this := object_after (m_target o) a (length (channels w)) o]> (objects w) ∧
  channels (step this a w).2 = channels_after (m_target o) a o (channels w).
Proof.
  intros Hlive Hown.
  assert (objects w = <[this := o]> (objects w)) as Hid
    by (symmetry; by apply insert_id).
  destruct a as [c | id | msg]; unfold object_after, channels_after, step;
    cbn [kind].
  - destruct (call_cases c w this o Hlive) as [E | E]; unfold bind; rewrite E; done.
  - unfold bind. destruct (m_midiTickPlayed o !! id) as [ch|] eqn:Hid'.
    + by rewrite (midiTickPlayed_bound _ _ _ _ _ Hlive Hid').
    + by rewrite (midiTickPlayed_unbound _ _ _ _ Hlive Hid').
  - unfold bind.
    destruct (decide (target msg = m_target o)) as [Heq | Hne];
      [|by rewrite (listener_skips _ _ _ _ Hlive Hne)].
    rewrite (listener_own _ _ _ _ Hlive Hown Heq). cbn zeta.
    rewrite lookup_built_table.
    set (w1 := set_calls (table_after this) w).
    assert (objects w1 !! this = Some o) as Hlive1 by exact Hlive.
    repeat case_decide; unfold bind, invoke; cbn [call_code call_this]; [| | |done].
    + destruct (args msg) as [|[] rest];
        try (by rewrite (on_statusChanged_live _ _ _ _ _ Hlive1));
        unfold on_statusChanged, arg_Status, bind, raise; done.
    + destruct (args msg) as [|[] rest];
        try (by rewrite (on_positionChanged_live _ _ _ _ _ Hlive1));
        unfold on_positionChanged, arg_float, bind, raise; done.
    + destruct (decodes_or_not (args msg)) as [Hbad | (id & tk & rest & ->)].
      * destruct (on_midiTickPlayed_undecodable w1 this _ Hbad) as [i ->].
        destruct (args msg) as [|[] [|[] ?]]; done.
      * destruct (m_midiTickPlayed o !! id) as [ch|] eqn:Hid'.
        -- by rewrite (on_midiTickPlayed_bound _ _ _ _ _ _ _ Hlive1 Hid').
        -- by rewrite (on_midiTickPlayed_unbound _ _ _ _ _ _ Hlive1 Hid').
Qed.


(** The proxy after one action: live, with the same target, its handlers
    still its own. *)
Lemma step_live (this : ptr) (a : Action) (w : World) (o : RpcSequencer) :
  objects w !! this = Some o →
  dispatches_to w this →
  objects (step this a w).2 !! this
    = Some (object_after (m_target o) a (length (channels w)) o) ∧
  dispatches_to (step this a w).2 this.
Proof.
  intros Hlive Hown. destruct (step_effect this a w o Hlive Hown) as [-> _].
  split; [apply lookup_insert_eq|].
  apply (step_own this (m_target o) a w). split; [by exists o | done].
Qed.





(** ** Tracks and their channels *)

Lemma registry_after (this : ptr) (a : Action) (w : World) (o : RpcSequencer)
    (K : track_id) :
  objects w !! this = Some o →
  dispatches_to w this →
  registry (step this a w).2 this K =
    m_midiTickPlayed (object_after (m_target o) a (length (channels w)) o) !! K.
Proof.
  intros Hlive Hown. apply registry_live.
  by destruct (step_live this a w o Hlive Hown).
Qed.

Lemma step_registry_ok (this : ptr) (a : Action) (w : World) (o : RpcSequencer) :
  objects w !! this = Some o →
  dispatches_to w this →
  registry_ok w this →
  registry_ok (step this a w).2 this.
Proof.
  intros Hlive Hown [Hlt Hinj].
  assert (∀ K, registry w this K = m_midiTickPlayed o !! K) as Hreg
    by (intros K; by apply registry_live).
  destruct (step_effect this a w o Hlive Hown) as [_ Hch].
  unfold registry_ok. setoid_rewrite (registry_after this a w o _ Hlive Hown).
  rewrite Hch. unfold object_after, channels_after.
  setoid_rewrite Hreg in Hlt. setoid_rewrite Hreg in Hinj.
  destruct (kind (m_target o) a) as [s | p | id tk | id |]; try (by split);
    (destruct (m_midiTickPlayed o !! id) as [ch|] eqn:Hid;
     [split; [|done]; intros K c HK; rewrite ?length_alter; by eapply Hlt|]);
    cbn; rewrite ?length_alter, length_app; cbn; split.
  all: try (intros K c; rewrite lookup_insert; case_decide;
            [intros [= <-]; lia | intros HK%Hlt; lia]).
  all: intros K1 K2 c; rewrite !lookup_insert; repeat case_decide; subst;
       try done; intros H1 H2; simplify_eq;
       try (apply Hlt in H1; lia); try (apply Hlt in H2; lia); by eapply Hinj.
Qed.



Lemma registry_ok_fresh (w : World) (this : ptr) (o : RpcSequencer) :
  objects w !! this = Some o →
  m_midiTickPlayed o = ∅ →
  registry_ok w this.
Proof.
  intros Hlive He.
  split; intros K; intros; rewrite (registry_live _ _ _ _ Hlive), He in *; done.
Qed.

Lemma run_registry_ok (this : ptr) (acts : list Action) :
  ∀ (w : World) (o : RpcSequencer),
    objects w !! this = Some o →
    dispatches_to w this →
    registry_ok w this →
    registry_ok (run this acts w).2 this.
Proof.
  induction acts as [|a acts IH]; intros w o Hlive Hown Hok; cbn; [done|].
  pose proof (step_registry_ok this a w o Hlive Hown Hok) as Hok1.
  destruct (step_live this a w o Hlive Hown) as [Hlive1 Hown1].
  destruct (step this a w) as [r w1]. cbn in *.
  specialize (IH w1 _ Hlive1 Hown1 Hok1). by destruct (run this acts w1).
Qed.

(** A channel that an access returned is the one registered afterwards. *)
Lemma step_observed (this : ptr) (a : Action) (w : World) (o : RpcSequencer)
    (K : track_id) (c : chan) :
  objects w !! this = Some o →
  (step this a w).1 = Ok (Channel K c) →
  registry (step this a w).2 this K = Some c.
Proof.
  intros Hlive. destruct a as [cmd | id | msg]; unfold step, bind.
  - by destruct (call this cmd w) as [[] ?].
  - destruct (m_midiTickPlayed o !! id) as [ch|] eqn:Hid.
    + rewrite (midiTickPlayed_bound _ _ _ _ _ Hlive Hid). cbn.
      intros [= -> ->]. by rewrite (registry_live _ _ _ _ Hlive).
    + rewrite (midiTickPlayed_unbound _ _ _ _ Hlive Hid). cbn.
      intros [= -> <-]. unfold registry. cbn. rewrite lookup_insert_eq. cbn.
      apply lookup_insert_eq.
  - by destruct (listener this msg w) as [[] ?].
Qed.

Lemma run_observed (this : ptr) (t : Target) (K : track_id) (c : chan)
    (acts : list Action) :
  ∀ w, own_proxy w this t →
       Ok (Channel K c) ∈ (run this acts w).1 →
       registry (run this acts w).2 this K = Some c.
Proof.
  induction acts as [|a acts IH]; intros w Hown; cbn.
  - intros H. by apply elem_of_nil in H.
  - pose proof (step_own this t a w Hown) as Hown1.
    pose proof Hown as [[o [Hlive _]] _].
    pose proof (step_observed this a w o K c Hlive) as Hobs.
    destruct (step this a w) as [r w1]. cbn in Hown1, Hobs.
    pose proof (run_bound this t K acts w1 c Hown1) as Hkeep.
    specialize (IH w1 Hown1).
    destruct (run this acts w1) as [rs w2]. cbn in *.
    intros [E | Hin]%elem_of_cons; [|by apply IH].
    symmetry in E. specialize (Hobs E).
    destruct (Hkeep Hobs) as [(_ & -> & _) _]. done.
Qed.



(** ** Edges of the listener *)

(** X9.  With the static table empty or built (by whichever proxy), a
    [midiTickPlayed] message for the proxy's own target that does not carry
    a track id followed by a tick is refused while its arguments are
    decoded, before any registry is touched: no channel is created, nothing
    is registered or sent; only the static table may have been built on the
    way. *)
Theorem undecodable_tick_creates_nothing (w : World) (this : ptr) (o : RpcSequencer)
    (msg : Msg) :
  objects w !! this = Some o →
  calls w = ∅ ∨ (∃ q, calls w = bind_from_real_sequencer q ∅) →
  target msg = m_target o →
  method msg = "midiTickPlayed" →
  undecodable_tick (args msg) →
  ∃ i, listener this msg w = (Raised (BadArgument i), set_calls (table_after this) w).
Proof.
  intros Hlive Htable Ht Hm Hbad.
  assert (∃ q, table_after this (calls w) = bind_from_real_sequencer q ∅) as [q Hq].
  { unfold table_after. destruct Htable as [-> | [q ->]].
    - exists this. by rewrite bool_decide_eq_true_2.
    - exists q. by rewrite bool_decide_eq_false_2 by apply built_table_nonempty. }
  rewrite (listener_addressed _ _ _ _ Hlive Ht). cbn zeta.
  rewrite Hq, Hm, lookup_midiTickPlayed. unfold bind, invoke. cbn.
  destruct (on_midiTickPlayed_undecodable (set_calls (table_after this) w) q _ Hbad)
    as [i ->].
  by exists i.
Qed.

Lemma undecodable_tick_creates_nothing_witness :
  let w := (do! RpcSequencer_ctor 1%N members0 in setup 1%N) (boot false) in
  let msg := mkMsg (mkTarget Sequencer) "midiTickPlayed" [ATrackId 7%N] in
  ∃ i, listener 1%N msg w.2 = (Raised (BadArgument i), set_calls (table_after 1%N) w.2).
Proof.
  intros w msg.
  refine (undecodable_tick_creates_nothing w.2 1%N
            (set_m_listenID 0%N (set_m_target (mkTarget Sequencer) members0)) msg
            _ _ _ _ _).
  - vm_compute. reflexivity.
  - left. vm_compute. reflexivity.
  - reflexivity.
  - reflexivity.
  - exact I.
Defined.

Lemma deliver_to_foreign (msg : Msg) (ls : list (ListenID * ptr)) (w : World) :
  (∀ l, l ∈ ls → ∃ o, objects w !! l.2 = Some o ∧ target msg ≠ m_target o) →
  deliver_to ls msg w = ((λ l, (l.1, l.2, Ok Skipped)) <$> ls, w).
Proof.
  induction ls as [|[id p] ls IH]; intros Hls; cbn; [done|].
  destruct (Hls (id, p)) as (o & Hlive & Hne); [by left|]. cbn in Hlive.
  rewrite (listener_skips _ _ _ _ Hlive Hne).
  rewrite IH; [done|]. intros l Hl. apply Hls. by right.
Qed.

(** X10.  A message addressed to a target that none of the listening
    proxies has is handed to each of them and skipped by each: the delivery
    changes nothing at all, not even the static table. *)
Theorem foreign_message_skipped_by_all (msg : Msg) (w : World) :
  (∀ l, l ∈ listeners w → ∃ o, objects w !! l.2 = Some o ∧ target msg ≠ m_target o) →
  deliver msg w = ((λ l, (l.1, l.2, Ok Skipped)) <$> listeners w, w).
Proof. apply deliver_to_foreign. Qed.

Lemma foreign_message_skipped_by_all_witness :
  let w := (do! RpcSequencer_ctor 1%N members0 in
            do! RpcSequencer_ctor 2%N members0 in
            do! setup 1%N in setup 2%N) (boot false) in
  let msg := mkMsg (mkTarget AudioEngine) "statusChanged" [AStatus Playing] in
  deliver msg w.2 = ([(0%N, 1%N, Ok Skipped); (1%N, 2%N, Ok Skipped)], w.2).
Proof.
  intros w msg.
  refine (foreign_message_skipped_by_all msg w.2 _).
  intros l Hl. vm_compute in Hl.
  apply elem_of_cons in Hl as [-> | Hl];
    [|apply elem_of_cons in Hl as [-> | Hl]; [|by apply elem_of_nil in Hl]];
    eexists; (split; [vm_compute; reflexivity | discriminate]).
Defined.

(** ** Setting up twice *)

(** X11.  [setup] keeps one listener id: called twice on a proxy it
    registers two listeners and remembers the second id only, so the
    destructor leaves the first registration behind, on an object that is
    gone; a message handed to that listener reaches for a dead object. *)
Theorem second_setup_orphans_first_listener (w : World) (this : ptr)
    (o : RpcSequencer) :
  objects w !! this = Some o →
  ∃ w3, RpcSequencer_dtor this ((do! setup this in setup this) w).2 = (Ok tt, w3) ∧
        (next_listenID w, this) ∈ listeners w3 ∧
        objects w3 !! this = None ∧
        ∀ msg, listener this msg w3 = (Raised (DeadObject this), w3).
Proof.
  intros Hlive.
  pose proof (setup_live _ _ _ Hlive) as E1.
  set (w1 := set_objects _ _) in E1.
  assert (objects w1 !! this = Some (set_m_listenID (next_listenID w) o)) as Hlive1
    by (cbn; apply lookup_insert_eq).
  pose proof (setup_live _ _ _ Hlive1) as E2.
  set (w2 := set_objects _ _) in E2.
  assert (objects w2 !! this
          = Some (set_m_listenID (next_listenID w1) (set_m_listenID (next_listenID w) o)))
    as Hlive2 by (cbn; apply lookup_insert_eq).
  assert ((do! setup this in setup this) w = (Ok tt, w2)) as ->
    by (unfold bind; by rewrite E1, E2).
  eexists. cbn [snd]. rewrite (dtor_live _ _ _ Hlive2). split; [reflexivity|].
  split; [|split].
  - cbn. apply list_elem_of_filter. split.
    + cbn. lia.
    + rewrite !elem_of_app, !list_elem_of_singleton. auto.
  - cbn. apply lookup_delete_eq.
  - intros msg. unfold listener, bind, deref. cbn. by rewrite lookup_delete_eq.
Qed.

Lemma second_setup_orphans_first_listener_witness :
  let w := (RpcSequencer_ctor 1%N members0 (boot false)).2 in
  ∃ w3, RpcSequencer_dtor 1%N ((do! setup 1%N in setup 1%N) w).2 = (Ok tt, w3) ∧
        (0%N, 1%N) ∈ listeners w3 ∧
        objects w3 !! 1%N = None ∧
        ∀ msg, listener 1%N msg w3 = (Raised (DeadObject 1%N), w3).
Proof.
  intros w.
  refine (second_setup_orphans_first_listener w 1%N
            (set_m_target (mkTarget Sequencer) members0) _).
  vm_compute. reflexivity.
Defined.

(** ** Any live proxy, whatever the static table holds *)

Lemma keeps_refl (this : ptr) (w : World) : keeps this w w.
Proof. intros o Ho. by exists o. Qed.

Lemma keeps_trans (this : ptr) (w w1 w2 : World) :
  keeps this w w1 → keeps this w1 w2 → keeps this w w2.
Proof.
  intros H1 H2 o Ho. destruct (H1 o Ho) as (o1 & Ho1 & T1 & M1).
  destruct (H2 o1 Ho1) as (o2 & Ho2 & T2 & M2).
  exists o2. split; [done|]. split; [congruence|]. intros K ch Hk. by apply M2, M1.
Qed.

Lemma keeps_same_objects (this : ptr) (w w1 : World) :
  objects w1 = objects w → keeps this w w1.
Proof. intros E o Ho. exists o. by rewrite E. Qed.

Lemma keeps_insert (this q : ptr) (w : World) (oq o' : RpcSequencer) :
  objects w !! q = Some oq →
  m_target o' = m_target oq →
  (∀ K ch, m_midiTickPlayed oq !! K = Some ch → m_midiTickPlayed o' !! K = Some ch) →
  keeps this w (set_objects <[q := o']> w).
Proof.
  intros Hq Ht Hm o Ho. cbn. destruct (decide (q = this)) as [-> | Hne].
  - exists o'. rewrite lookup_insert_eq. assert (o = oq) as -> by congruence. done.
  - exists o. by rewrite lookup_insert_ne.
Qed.

Lemma on_statusChanged_keeps (this q : ptr) (a : Args) (w : World) :
  keeps this w (on_statusChanged q a w).2.
Proof.
  destruct (objects w !! q) as [oq|] eqn:Hq.
  - destruct (on_statusChanged_cases w q oq a Hq) as [[i ->] | [s ->]]; cbn.
    + apply keeps_refl.
    + by apply keeps_insert with oq.
  - apply keeps_same_objects.
    unfold on_statusChanged, arg_Status, update, bind, deref, modify, ret, raise.
    repeat (case_match; simplify_eq/=); done.
Qed.

Lemma on_positionChanged_keeps (this q : ptr) (a : Args) (w : World) :
  keeps this w (on_positionChanged q a w).2.
Proof.
  destruct (objects w !! q) as [oq|] eqn:Hq.
  - destruct (on_positionChanged_cases w q oq a Hq) as [[i ->] | [s ->]]; cbn.
    + apply keeps_refl.
    + by apply keeps_insert with oq.
  - apply keeps_same_objects.
    unfold on_positionChanged, arg_float, update, bind, deref, modify, ret, raise.
    repeat (case_match; simplify_eq/=); done.
Qed.

Lemma on_midiTickPlayed_keeps (this q : ptr) (a : Args) (w : World) :
  keeps this w (on_midiTickPlayed q a w).2.
Proof.
  destruct (decodes_or_not a) as [Hbad | (id & tk & rest & ->)].
  { destruct (on_midiTickPlayed_undecodable w q a Hbad) as [i ->]. apply keeps_refl. }
  destruct (objects w !! q) as [oq|] eqn:Hq.
  - destruct (m_midiTickPlayed oq !! id) as [ch|] eqn:Hid.
    + rewrite (on_midiTickPlayed_bound _ _ _ _ _ _ _ Hq Hid). by apply keeps_same_objects.
    + rewrite (on_midiTickPlayed_unbound _ _ _ _ _ _ Hq Hid). cbn.
      eapply keeps_trans; [|by apply keeps_same_objects].
      apply (keeps_insert this q (set_channels (λ cs, cs ++ [[]]) w) oq); [done..|].
      intros K ch Hk. cbn. rewrite lookup_insert_ne; [done | congruence].
  - apply keeps_same_objects.
    unfold on_midiTickPlayed, arg_track_id, arg_tick_t, m_midiTickPlayed_at,
      bind, deref, ret. cbn. by rewrite Hq.
Qed.

Lemma invoke_keeps (this : ptr) (c : Call) (a : Args) (w : World) :
  keeps this w (invoke c a w).2.
Proof.
  destruct c as [q []]; unfold invoke; cbn [call_code call_this];
    auto using on_statusChanged_keeps, on_positionChanged_keeps, on_midiTickPlayed_keeps.
Qed.

(** Whatever closure the listener of whichever proxy runs. *)
Lemma listener_keeps (this p : ptr) (msg : Msg) (w : World) :
  keeps this w (listener p msg w).2.
Proof.
  destruct (objects w !! p) as [o|] eqn:Hlive.
  - destruct (decide (target msg = m_target o)) as [Heq | Hne].
    + rewrite (listener_addressed _ _ _ _ Hlive Heq). cbn zeta.
      destruct (table_after p (calls w) !! method msg) as [c|];
        [|by apply keeps_same_objects].
      unfold bind.
      pose proof (invoke_keeps this c (args msg) (set_calls (table_after p) w)) as Hk.
      destruct (invoke c (args msg) _) as [[] w2]; cbn in *;
        (eapply keeps_trans; [|exact Hk]); by apply keeps_same_objects.
    + rewrite (listener_skips _ _ _ _ Hlive Hne). apply keeps_refl.
  - unfold listener, bind, deref. rewrite Hlive. apply keeps_refl.
Qed.

(** One action of a live proxy: the proxy stays live with its target and
    its registered channels; a bind request for [K] is sent exactly by an
    access to [K] that finds no channel, which registers one. *)
Lemma step_any (this : ptr) (K : track_id) (a : Action) (w : World) (o : RpcSequencer) :
  objects w !! this = Some o →
  keeps this w (step this a w).2 ∧
  bind_requests K (sent (step this a w).2) = bind_requests K (sent w) + access_binds K o a ∧
  (access_binds K o a = 1 → is_Some (registry (step this a w).2 this K)).
Proof.
  intros Hlive. destruct a as [c | id | msg]; unfold step, bind; cbn [access_binds].
  - destruct (call_cases c w this o Hlive) as [-> | ->]; cbn.
    + split; [apply keeps_refl|]. split; [lia | done].
    + split; [by apply keeps_same_objects|]. split; [|done].
      rewrite bind_requests_snoc, operation_is_no_bind_request. lia.
  - destruct (m_midiTickPlayed o !! id) as [ch|] eqn:Hid.
    + rewrite (midiTickPlayed_bound _ _ _ _ _ Hlive Hid). cbn.
      split; [apply keeps_refl|]. case_decide; subst; rewrite ?Hid; split; (lia || done).
    + rewrite (midiTickPlayed_unbound _ _ _ _ Hlive Hid). cbn. split; [|split].
      * eapply keeps_trans; [by apply keeps_same_objects|].
        apply (keeps_insert this this (set_channels (λ cs, cs ++ [[]]) (with_sent _ w)) o);
          [done..|].
        intros K' ch Hk. cbn. rewrite lookup_insert_ne; [done | congruence].
      * rewrite bind_requests_snoc. unfold is_bind_request. cbn.
        case_decide as E.
        -- subst. by rewrite Hid, !bool_decide_eq_true_2.
        -- by rewrite (bool_decide_eq_false_2 (id = K)).
      * case_decide as E; [|done]. subst. intros _.
        unfold registry. cbn. rewrite lookup_insert_eq. cbn.
        rewrite lookup_insert_eq. by eexists.
  - pose proof (listener_keeps this this msg w) as Hk.
    destruct (listener_quiet this msg w) as (S & _).
    destruct (listener this msg w) as [[] w1]; cbn in *; rewrite S;
      (split; [done|]); split; (lia || done).
Qed.

Lemma run_keeps (this : ptr) (acts : list Action) :
  ∀ (w : World) (o : RpcSequencer),
    objects w !! this = Some o → keeps this w (run this acts w).2.
Proof.
  induction acts as [|a acts IH]; intros w o Hlive; cbn; [apply keeps_refl|].
  destruct (step_any this 0%N a w o Hlive) as (Hk & _).
  destruct (step this a w) as [r w1]. cbn in Hk.
  destruct (Hk o Hlive) as (o1 & Hlive1 & _).
  specialize (IH w1 o1 Hlive1). destruct (run this acts w1) as [rs w2]. cbn in *.
  by eapply keeps_trans.
Qed.

(** A channel that an access returned stays the one registered. *)
Lemma run_observed_any (this : ptr) (K : track_id) (c : chan) (acts : list Action) :
  ∀ (w : World) (o : RpcSequencer),
    objects w !! this = Some o →
    Ok (Channel K c) ∈ (run this acts w).1 →
    registry (run this acts w).2 this K = Some c.
Proof.
  induction acts as [|a acts IH]; intros w o Hlive; cbn.
  - intros H. by apply elem_of_nil in H.
  - destruct (step_any this K a w o Hlive) as (Hk & _).
    pose proof (step_observed this a w o K c Hlive) as Hobs.
    destruct (step this a w) as [r w1]. cbn in Hk, Hobs.
    destruct (Hk o Hlive) as (o1 & Hlive1 & _).
    pose proof (run_keeps this acts w1 o1 Hlive1) as Hrest.
    specialize (IH w1 o1 Hlive1).
    destruct (run this acts w1) as [rs w2]. cbn in *.
    intros [E | Hin]%elem_of_cons; [|by apply IH].
    symmetry in E. specialize (Hobs E).
    rewrite (registry_live _ _ _ _ Hlive1) in Hobs.
    destruct (Hrest o1 Hlive1) as (o2 & Hlive2 & _ & M).
    rewrite (registry_live _ _ _ _ Hlive2). by apply M.
Qed.





(** ** What a proxy sends *)

Lemma step_sent (this : ptr) (a : Action) (w : World) (o : RpcSequencer) :
  objects w !! this = Some o →
  ∃ out, sent (step this a w).2 = sent w ++ out ∧
         Forall (λ m, target m = m_target o) out ∧
         length out ≤ local_actions [a].
Proof.
  intros Hlive. destruct a as [c | id | msg]; unfold step, bind.
  - destruct (call_cases c w this o Hlive) as [-> | ->]; cbn.
    + exists []. rewrite app_nil_r. split; [done|]. split; [done | cbn; lia].
    + eexists [_]. split; [reflexivity|]. split; [|done].
      by apply Forall_singleton.
  - destruct (m_midiTickPlayed o !! id) as [ch|] eqn:Hid.
    + rewrite (midiTickPlayed_bound _ _ _ _ _ Hlive Hid). cbn.
      exists []. rewrite app_nil_r. split; [done|]. split; [done | cbn; lia].
    + rewrite (midiTickPlayed_unbound _ _ _ _ Hlive Hid). cbn.
      eexists [_]. split; [reflexivity|]. split; [|done].
      by apply Forall_singleton.
  - destruct (listener_quiet this msg w) as (S & _).
    destruct (listener this msg w) as [[] w1]; cbn in *;
      exists []; rewrite app_nil_r; (split; [done|]); (split; [done|]); cbn; lia.
Qed.

(** X12.  Over any history of a live proxy, whatever the static table
    holds, every message handed to [send], bind requests included, is
    addressed to the proxy's own target, and there is at most one per local
    call or access and none for an inbound message. *)
Theorem outbound_goes_to_own_target (this : ptr) (acts : list Action)
    (w : World) (o : RpcSequencer) :
  objects w !! this = Some o →
  ∃ out, sent (run this acts w).2 = sent w ++ out ∧
         Forall (λ m, target m = m_target o) out ∧
         length out ≤ local_actions acts.
Proof.
  revert w o. induction acts as [|a acts IH]; intros w o Hlive; cbn [run].
  - exists []. rewrite app_nil_r. split; [done|]. split; [done | cbn; lia].
  - destruct (step_sent this a w o Hlive) as (out1 & E1 & F1 & L1).
    destruct (step_any this 0%N a w o Hlive) as (Hk & _).
    destruct (step this a w) as [r w1]. cbn in E1, Hk.
    destruct (Hk o Hlive) as (o1 & Hlive1 & Ht & _).
    destruct (IH w1 o1 Hlive1) as (out2 & E2 & F2 & L2). rewrite Ht in F2.
    destruct (run this acts w1) as [rs w2]. cbn in *.
    exists (out1 ++ out2). rewrite E2, E1, app_assoc. split; [done|].
    split; [by apply Forall_app|].
    rewrite length_app. unfold local_actions in *. cbn in *.
    destruct a; cbn in *; lia.
Qed.

Lemma outbound_goes_to_own_target_witness :
  let w := (do! RpcSequencer_ctor 1%N members0 in
            do! RpcSequencer_ctor 2%N members0 in
            do! setup 1%N in do! setup 2%N in
            listener 1%N (mkMsg (mkTarget Sequencer) "positionChanged" [])) (boot false) in
  let acts := [GetChannel 7%N; Local Play; Inbound (mkMsg (mkTarget Sequencer) "x" [])] in
  ∃ out, sent (run 2%N acts w.2).2 = sent w.2 ++ out ∧
         Forall (λ m, target m = mkTarget Sequencer) out ∧
         length out ≤ local_actions acts.
Proof.
  intros w acts.
  refine (outbound_goes_to_own_target 2%N acts w.2
            (set_m_listenID 1%N (set_m_target (mkTarget Sequencer) members0)) _).
  vm_compute. reflexivity.
Defined.

(** ** Two proxies in one process *)

(** C7.  Two proxies, at addresses 1 and 2, set up in one process; the rpc
    channel delivers [positionChanged] and then [statusChanged(Paused)].
    The listener of proxy 2 dispatches both messages, through the closures
    of proxy 1: the cached status and position of proxy 2 stay as they
    were, and its accessors return the old values; proxy 1 is updated
    twice by each message. *)
Theorem second_proxy_cache_not_updated :
  let w := (do! RpcSequencer_ctor 1%N members0 in
            do! RpcSequencer_ctor 2%N members0 in
            do! setup 1%N in setup 2%N) (boot false) in
  let t := mkTarget Sequencer in
  let r := deliver_all [mkMsg t "positionChanged" [AFloat (S754_infinity false)];
                        mkMsg t "statusChanged" [AStatus Paused]] w.2 in
  r.1 = [(0%N, 1%N, Ok (Invoked (mkCall 1%N OnPositionChanged)));
         (1%N, 2%N, Ok (Invoked (mkCall 1%N OnPositionChanged)));
         (0%N, 1%N, Ok (Invoked (mkCall 1%N OnStatusChanged)));
         (1%N, 2%N, Ok (Invoked (mkCall 1%N OnStatusChanged)))] ∧
  status 2%N r.2 = (Ok Stopped, r.2) ∧
  playbackPosition 2%N r.2 = (Ok (S754_zero false), r.2) ∧
  statusChanged 2%N r.2 = (Ok [], r.2) ∧
  positionChanged 2%N r.2 = (Ok 0, r.2) ∧
  status 1%N r.2 = (Ok Paused, r.2) ∧
  playbackPosition 1%N r.2 = (Ok (S754_infinity false), r.2) ∧
  statusChanged 1%N r.2 = (Ok [Paused; Paused], r.2) ∧
  positionChanged 1%N r.2 = (Ok 2, r.2).
Proof. vm_compute. repeat split. Qed.

(** C3.  Two proxies, at addresses 1 and 2, set up in one process; an
    early [midiTickPlayed(7, 3)] is delivered before any access to track 7.
    The listener of proxy 2 dispatches it through the closure of proxy 1,
    so the tick lands (a second time) in the channel that proxy 1 created;
    proxy 2 registers nothing, and its [midiTickPlayed(7)] afterwards
    creates a second channel, which has received no tick. *)
Theorem second_proxy_early_event_lost :
  let w := (do! RpcSequencer_ctor 1%N members0 in
            do! RpcSequencer_ctor 2%N members0 in
            do! setup 1%N in setup 2%N) (boot false) in
  let event := mkMsg (mkTarget Sequencer) "midiTickPlayed" [ATrackId 7%N; ATick 3%N] in
  let d := deliver event w.2 in
  let r := midiTickPlayed 2%N 7%N d.2 in
  d.1 = [(0%N, 1%N, Ok (Invoked (mkCall 1%N OnMidiTickPlayed)));
         (1%N, 2%N, Ok (Invoked (mkCall 1%N OnMidiTickPlayed)))] ∧
  registry d.2 2%N 7%N = None ∧
  registry d.2 1%N 7%N = Some 0 ∧
  channels d.2 = [[3%N; 3%N]] ∧
  r.1 = Ok 1 ∧
  channels r.2 = [[3%N; 3%N]; []] ∧
  registry r.2 2%N 7%N = Some 1.
Proof. vm_compute. repeat split. Qed.

(** C9.  Two proxies, at addresses 1 and 2, set up in one process; after a
    first delivery proxy 1 is destroyed.  Its registration is revoked, its
    listener is called no more, but its closures are still what the static
    table holds: on the next message the listener of proxy 2 runs the
    [statusChanged] closure of the destroyed proxy, which reaches for the
    members of an object that is gone. *)
Theorem closure_runs_after_teardown :
  let t := mkTarget Sequencer in
  let w := (do! RpcSequencer_ctor 1%N members0 in
            do! RpcSequencer_ctor 2%N members0 in
            do! setup 1%N in setup 2%N) (boot false) in
  let w1 := (deliver (mkMsg t "positionChanged" [AFloat (S754_zero false)]) w.2).2 in
  let w2 := (RpcSequencer_dtor 1%N w1).2 in
  let r := deliver (mkMsg t "statusChanged" [AStatus Playing]) w2 in
  RpcSequencer_dtor 1%N w1 = (Ok tt, w2) ∧
  listeners w2 = [(1%N, 2%N)] ∧
  objects w2 !! 1%N = None ∧
  calls w2 !! "statusChanged" = Some (mkCall 1%N OnStatusChanged) ∧
  r.1 = [(1%N, 2%N, Raised (DeadObject 1%N))] ∧
  status 2%N r.2 = (Ok Stopped, r.2).
Proof. vm_compute. repeat split. Qed.

(** ** The registry, whatever the static table holds *)

Lemma registry_ok_same (this : ptr) (w w1 : World) :
  (∀ K, registry w1 this K = registry w this K) →
  length (channels w) ≤ length (channels w1) →
  registry_ok w this → registry_ok w1 this.
Proof.
  intros Hreg Hlen [Hlt Hinj]. split.
  - intros K c. rewrite Hreg. intros Hc%Hlt. lia.
  - intros K1 K2 c. rewrite !Hreg. apply Hinj.
Qed.

Lemma registry_insert (this q : ptr) (w : World) (oq o' : RpcSequencer) (K : track_id) :
  objects w !! q = Some oq →
  m_midiTickPlayed o' = m_midiTickPlayed oq →
  registry (set_objects <[q := o']> w) this K = registry w this K.
Proof.
  intros Hq Hm. unfold registry. cbn. destruct (decide (q = this)) as [-> | Hne].
  - rewrite lookup_insert_eq, Hq. cbn. by rewrite Hm.
  - by rewrite lookup_insert_ne.
Qed.

Lemma registry_ok_channel_for (this q : ptr) (w : World) (oq : RpcSequencer)
    (id : track_id) :
  objects w !! q = Some oq →
  m_midiTickPlayed oq !! id = None →
  registry_ok w this →
  registry_ok (with_channel_for q oq id w) this.
Proof.
  intros Hq Hid [Hlt Hinj]. destruct (decide (q = this)) as [-> | Hne].
  - assert (∀ K, registry (with_channel_for this oq id w) this K
                 = <[id := length (channels w)]> (m_midiTickPlayed oq) !! K) as Hreg.
    { intros K. unfold registry. cbn. by rewrite lookup_insert_eq. }
    assert (∀ K, registry w this K = m_midiTickPlayed oq !! K) as Hold
      by (intros K; by apply registry_live).
    setoid_rewrite Hold in Hlt. setoid_rewrite Hold in Hinj.
    split.
    + intros K c. rewrite Hreg. cbn. rewrite length_app, lookup_insert. cbn.
      case_decide; [intros [= <-]; lia | intros Hc%Hlt; lia].
    + intros K1 K2 c. rewrite !Hreg, !lookup_insert.
      repeat case_decide; subst; try done; intros H1 H2; simplify_eq;
        try (apply Hlt in H1; lia); try (apply Hlt in H2; lia); by eapply Hinj.
  - apply (registry_ok_same this w); [| cbn; rewrite length_app; lia | by split].
    intros K. unfold registry. cbn. by rewrite lookup_insert_ne.
Qed.

Lemma invoke_registry_ok (this : ptr) (c : Call) (a : Args) (w : World) :
  registry_ok w this → registry_ok (invoke c a w).2 this.
Proof.
  intros Hok. destruct c as [q code]. unfold invoke. cbn [call_code call_this].
  destruct (objects w !! q) as [oq|] eqn:Hq.
  - destruct code.
    + destruct (on_statusChanged_cases w q oq a Hq) as [[i ->] | [s ->]]; [done|].
      apply (registry_ok_same this w); [|done..].
      intros K. by apply registry_insert with oq.
    + destruct (on_positionChanged_cases w q oq a Hq) as [[i ->] | [s ->]]; [done|].
      apply (registry_ok_same this w); [|done..].
      intros K. by apply registry_insert with oq.
    + destruct (decodes_or_not a) as [Hbad | (id & tk & rest & ->)].
      { by destruct (on_midiTickPlayed_undecodable w q a Hbad) as [i ->]. }
      destruct (m_midiTickPlayed oq !! id) as [ch|] eqn:Hid.
      * rewrite (on_midiTickPlayed_bound _ _ _ _ _ _ _ Hq Hid).
        apply (registry_ok_same this w); [done | | done].
        cbn. by rewrite length_alter.
      * rewrite (on_midiTickPlayed_unbound _ _ _ _ _ _ Hq Hid).
        apply (registry_ok_same this (with_channel_for q oq id w)); [done | |].
        -- cbn. by rewrite length_alter.
        -- by apply registry_ok_channel_for.
  - assert ((match code with
             | OnStatusChanged => on_statusChanged q a
             | OnPositionChanged => on_positionChanged q a
             | OnMidiTickPlayed => on_midiTickPlayed q a
             end w).2 = w) as ->; [|done].
    destruct code;
      unfold on_statusChanged, on_positionChanged, on_midiTickPlayed, arg_Status,
        arg_float, arg_track_id, arg_tick_t, m_midiTickPlayed_at, update, bind,
        deref, ret, raise;
      repeat (case_match; simplify_eq/=); done.
Qed.

Lemma listener_registry_ok (this p : ptr) (msg : Msg) (w : World) :
  registry_ok w this → registry_ok (listener p msg w).2 this.
Proof.
  intros Hok. destruct (objects w !! p) as [o|] eqn:Hlive.
  - destruct (decide (target msg = m_target o)) as [Heq | Hne].
    + rewrite (listener_addressed _ _ _ _ Hlive Heq). cbn zeta.
      assert (registry_ok (set_calls (table_after p) w) this) as Hok1 by exact Hok.
      destruct (table_after p (calls w) !! method msg) as [c|]; [|exact Hok].
      unfold bind.
      pose proof (invoke_registry_ok this c (args msg) _ Hok1) as H.
      by destruct (invoke c (args msg) _) as [[] w2].
    + by rewrite (listener_skips _ _ _ _ Hlive Hne).
  - unfold listener, bind, deref. by rewrite Hlive.
Qed.

Lemma step_registry_ok_any (this : ptr) (a : Action) (w : World) (o : RpcSequencer) :
  objects w !! this = Some o →
  registry_ok w this → registry_ok (step this a w).2 this.
Proof.
  intros Hlive Hok. destruct a as [c | id | msg]; unfold step, bind.
  - by destruct (call_cases c w this o Hlive) as [-> | ->].
  - destruct (m_midiTickPlayed o !! id) as [ch|] eqn:Hid.
    + by rewrite (midiTickPlayed_bound _ _ _ _ _ Hlive Hid).
    + rewrite (midiTickPlayed_unbound _ _ _ _ Hlive Hid). cbn [snd ret].
      by apply registry_ok_channel_for.
  - pose proof (listener_registry_ok this this msg w Hok) as H.
    by destruct (listener this msg w) as [[] w1].
Qed.

Lemma run_registry_ok_any (this : ptr) (acts : list Action) :
  ∀ (w : World) (o : RpcSequencer),
    objects w !! this = Some o →
    registry_ok w this →
    registry_ok (run this acts w).2 this.
Proof.
  induction acts as [|a acts IH]; intros w o Hlive Hok; cbn; [done|].
  pose proof (step_registry_ok_any this a w o Hlive Hok) as Hok1.
  destruct (step_any this 0%N a w o Hlive) as (Hk & _).
  destruct (step this a w) as [r w1]. cbn in *.
  destruct (Hk o Hlive) as (o1 & Hlive1 & _).
  specialize (IH w1 o1 Hlive1 Hok1). by destruct (run this acts w1).
Qed.

(** X8.  For a live proxy, whatever the static table holds, over any
    history of the proxy, starting from a registry in which every channel
    exists and no two tracks share one: the registry stays so, every
    channel that an access returns exists, and accesses to different tracks
    never return the same channel. *)
Theorem tracks_never_share_a_channel (this : ptr) (acts : list Action) (w : World)
    (o : RpcSequencer) :
  objects w !! this = Some o →
  registry_ok w this →
  registry_ok (run this acts w).2 this ∧
  (∀ K c, Ok (Channel K c) ∈ (run this acts w).1 →
          c < length (channels (run this acts w).2)) ∧
  (∀ K1 K2 c, Ok (Channel K1 c) ∈ (run this acts w).1 →
              Ok (Channel K2 c) ∈ (run this acts w).1 → K1 = K2).
Proof.
  intros Hlive Hok.
  pose proof (run_registry_ok_any this acts w o Hlive Hok) as Hok'.
  split; [exact Hok'|]. destruct Hok' as [Hlt Hinj]. split.
  - intros K c Hin. eapply Hlt. by eapply run_observed_any.
  - intros K1 K2 c H1 H2. eapply Hinj; by eapply run_observed_any.
Qed.

Lemma tracks_never_share_a_channel_witness :
  let w := (do! RpcSequencer_ctor 1%N members0 in
            do! RpcSequencer_ctor 2%N members0 in
            do! setup 1%N in do! setup 2%N in
            listener 1%N (mkMsg (mkTarget Sequencer) "positionChanged" [])) (boot false) in
  let t := mkTarget Sequencer in
  let acts := [GetChannel 7%N;
               Inbound (mkMsg t "midiTickPlayed" [ATrackId 8%N; ATick 3%N]);
               GetChannel 8%N; GetChannel 7%N] in
  registry_ok (run 2%N acts w.2).2 2%N.
Proof.
  intros w t acts.
  refine (proj1 (tracks_never_share_a_channel 2%N acts w.2
            (set_m_listenID 1%N (set_m_target (mkTarget Sequencer) members0)) _ _)).
  - vm_compute. reflexivity.
  - eapply registry_ok_fresh; vm_compute; reflexivity.
Defined.
